(** * webcrawler: the crawl engine and tree assembly of
      [3webmap_playwright.py] and [final/final_webmap.py]

    A shallow embedding of the two Python scripts.  Python [str] values are
    Rocq [string]s, Python [set]s of URLs are [gset string], the insertion
    ordered [dict] of pages is an association list, and the Playwright tab
    is an abstract state threaded through every call that touches it. *)

From Stdlib Require Import ZArith Ascii String List Lia Bool.
From stdpp Require Import base strings list gmap sorting.

(** * Python string primitives *)

Module Py.

(** [s.split(c, 1)[0]] for a one-character separator: the part of [s] in
    front of the first [c], all of [s] when [c] does not occur. *)
Fixpoint before_char (c : ascii) (s : string) : string :=
  match s with
  | EmptyString => EmptyString
  | String a s' => if Ascii.eqb a c then EmptyString else String a (before_char c s')
  end.

(** [s.rstrip(c)]: every trailing [c] is removed. *)
Fixpoint rstrip (c : ascii) (s : string) : string :=
  match s with
  | EmptyString => EmptyString
  | String a s' =>
      match rstrip c s' with
      | EmptyString => if Ascii.eqb a c then EmptyString else String a EmptyString
      | r => String a r
      end
  end.

(** [s.lstrip(c)]. *)
Fixpoint lstrip (c : ascii) (s : string) : string :=
  match s with
  | EmptyString => EmptyString
  | String a s' => if Ascii.eqb a c then lstrip c s' else s
  end.

(** [s.strip(c)]. *)
Definition strip (c : ascii) (s : string) : string := rstrip c (lstrip c s).

(** [s.endswith(c)] for a one-character suffix. *)
Fixpoint ends_with_char (c : ascii) (s : string) : bool :=
  match s with
  | EmptyString => false
  | String a EmptyString => Ascii.eqb a c
  | String _ s' => ends_with_char c s'
  end.

(** [s.count(c)] for a one-character pattern. *)
Fixpoint count (c : ascii) (s : string) : nat :=
  match s with
  | EmptyString => 0
  | String a s' => (if Ascii.eqb a c then 1 else 0) + count c s'
  end.

(** [s.startswith(p)]. *)
Fixpoint startswith (p s : string) : bool :=
  match p, s with
  | EmptyString, _ => true
  | String a p', String b s' => Ascii.eqb a b && startswith p' s'
  | String _ _, EmptyString => false
  end.

(** [s[n:]]. *)
Fixpoint drop (n : nat) (s : string) : string :=
  match n, s with
  | O, _ => s
  | S n', String _ s' => drop n' s'
  | S _, EmptyString => EmptyString
  end.

(** [s[:n]]. *)
Fixpoint take (n : nat) (s : string) : string :=
  match n, s with
  | O, _ => EmptyString
  | S n', String a s' => String a (take n' s')
  | S _, EmptyString => EmptyString
  end.

(** [s.endswith(suffix)]: the last [len(suffix)] characters of [s] are
    compared with [suffix]. *)
Definition endswith (suffix s : string) : bool :=
  (String.length suffix <=? String.length s)%nat
  && String.eqb (drop (String.length s - String.length suffix) s) suffix.

(** [s.split(sep, 1)] for a non-empty separator: [None] stands for the
    one-element list [[s]], [Some (h, t)] for the list [[h, t]] cut at the
    first occurrence of [sep]. *)
Fixpoint split_once (sep s : string) : option (string * string) :=
  if startswith sep s then Some (EmptyString, drop (String.length sep) s)
  else match s with
       | EmptyString => None
       | String a s' =>
           match split_once sep s' with
           | Some (h, t) => Some (String a h, t)
           | None => None
           end
       end.

(** [s.split(c)] for a one-character separator: always at least one piece. *)
Fixpoint split_char (c : ascii) (s : string) : list string :=
  match s with
  | EmptyString => [EmptyString]
  | String a s' =>
      if Ascii.eqb a c then EmptyString :: split_char c s'
      else match split_char c s' with
           | p :: ps => String a p :: ps
           | [] => [String a EmptyString]
           end
  end.

(** [sep.join(parts)]. *)
Fixpoint join (sep : string) (parts : list string) : string :=
  match parts with
  | [] => EmptyString
  | [p] => p
  | p :: ps => p +:+ sep +:+ join sep ps
  end.

(** [c in s] for a character. *)
Fixpoint has_char (c : ascii) (s : string) : bool :=
  match s with
  | EmptyString => false
  | String a s' => Ascii.eqb a c || has_char c s'
  end.

(** ASCII [str.lower()]. *)
Definition lower_char (a : ascii) : ascii :=
  let n := nat_of_ascii a in
  if ((65 <=? n) && (n <=? 90))%nat then ascii_of_nat (n + 32) else a.

Fixpoint lower (s : string) : string :=
  match s with
  | EmptyString => EmptyString
  | String a s' => String (lower_char a) (lower s')
  end.

(** Truthiness of a string: [not s] is true of the empty string. *)
Definition is_empty (s : string) : bool :=
  match s with EmptyString => true | _ => false end.

End Py.

(** * URL parsing

    [urllib.parse.urlparse] is a library function; the scripts read the
    [scheme], [netloc] and [path] of its result.  This is CPython's
    algorithm for those three fields (scheme detection, [_splitnetloc],
    fragment and query removal, [_splitparams]); stripping of control
    characters and the [ValueError] checks on bracketed hosts are left out. *)

Module Url.
Import Py.

Record parsed := { scheme : string; netloc : string; path : string }.

Definition is_alpha (a : ascii) : bool :=
  let n := nat_of_ascii a in
  ((65 <=? n) && (n <=? 90) || (97 <=? n) && (n <=? 122))%nat.

Definition is_digit (a : ascii) : bool :=
  let n := nat_of_ascii a in ((48 <=? n) && (n <=? 57))%nat.

(** [scheme_chars]: letters, digits and [+-.]. *)
Definition scheme_char (a : ascii) : bool :=
  is_alpha a || is_digit a
  || Ascii.eqb a "+" || Ascii.eqb a "-" || Ascii.eqb a ".".

Fixpoint all_chars (p : ascii → bool) (s : string) : bool :=
  match s with
  | EmptyString => true
  | String a s' => p a && all_chars p s'
  end.

(** The part of [s] in front of the first of [/], [?] and [#]. *)
Fixpoint before_delim (s : string) : string :=
  match s with
  | EmptyString => EmptyString
  | String a s' =>
      if Ascii.eqb a "/" || Ascii.eqb a "?" || Ascii.eqb a "#" then EmptyString
      else String a (before_delim s')
  end.

(** [_splitparams(url)[0]]: cut at the first [;] behind the last [/]. *)
Fixpoint splitparams (s : string) : string :=
  match s with
  | EmptyString => EmptyString
  | String a s' =>
      if has_char "/" s' then String a (splitparams s')
      else if Ascii.eqb a "/" then String a (before_char ";" s')
      else before_char ";" s
  end.

Definition uses_params : list string :=
  [""; "ftp"; "hdl"; "prospero"; "http"; "imap"; "https"; "shttp"; "rtsp";
   "rtspu"; "sip"; "sips"; "mms"; "sftp"; "tel"].

Definition urlparse (url : string) : parsed :=
  let cand := before_char ":" url in
  let '(sch, rest) :=
    if has_char ":" url && negb (is_empty cand)
       && all_chars scheme_char cand
       && match cand with String a _ => is_alpha a | EmptyString => false end
    then (lower cand, drop (S (String.length cand)) url)
    else (EmptyString, url) in
  let '(net, rest) :=
    if startswith "//" rest
    then let body := drop 2 rest in
         let n := before_delim body in (n, drop (String.length n) body)
    else (EmptyString, rest) in
  let rest := before_char "#" rest in
  let rest := before_char "?" rest in
  let pth :=
    if existsb (String.eqb sch) uses_params && has_char ";" rest
    then splitparams rest else rest in
  {| scheme := sch; netloc := net; path := pth |}.

End Url.

(** * The world outside the scripts

    The Playwright tab, the markup parser, the HTTP client and the iteration
    order of Python sets are not code of the scripts.  A [World] gives the
    outcome of every call the scripts make to them; the state of the one tab
    that is reused for the whole crawl is threaded through those calls. *)

(** The order in which a [for] loop (or [list(...)]) walks a Python set: some
    enumeration of its elements. *)
Record SetIter := {
  iter :> gset string → list string;
  iter_perm : ∀ X, iter X ≡ₚ elements X
}.

(** [tab.goto]: returns, raises [TimeoutError], raises something else. *)
Inductive goto_outcome := GotoOk | GotoTimeout | GotoError.

(** [with tab.expect_navigation(...): el.click()]: the block completes,
    raises [TimeoutError], raises something else. *)
Inductive click_outcome := ClickNavigated | ClickTimeout | ClickError.

Record World := {
  tab : Type;
  handle : Type;
  (** [tab.url] *)
  tab_url : tab → string;
  (** [tab.goto(url, ...)] *)
  tab_goto : string → tab → goto_outcome * tab;
  (** the scroll loop, whose exceptions are caught and printed *)
  tab_scroll : tab → tab;
  (** [expand_menus(tab)], every failure inside swallowed *)
  tab_expand_menus : tab → tab;
  (** [tab.content()]; [None] when it raises *)
  tab_content : tab → option string;
  (** BeautifulSoup and [urljoin]: for each [<a href>] of the markup whose
      stripped [href] passes the script's pseudo-scheme filter, in document
      order, [urljoin(base, href)] *)
  anchor_urls : string → string → list string;
  (** for each [onclick] attribute in which one of the three patterns
      matches, [urljoin(base_url, path_val)]; empty when the query raises *)
  onclick_urls : string → tab → list string;
  (** for each non-empty [data-url] attribute, [urljoin(base_url, link)] *)
  data_urls : string → tab → list string;
  (** [tab.query_selector_all] of the clickable vocabulary; [None] when it
      raises *)
  tab_candidates : tab → option (list handle);
  (** [el.bounding_box()] returned a box ([false]: [None], or it raised) *)
  el_has_box : handle → tab → bool;
  (** the click under [expect_navigation] *)
  el_click : handle → tab → click_outcome * tab;
  (** [tab.go_back(...)]; [false] when it raises *)
  tab_go_back : tab → bool * tab;
  (** [fetch_html(url)]: the body of a 200 response, else [None] *)
  fetch_html : string → option string;
  set_order : SetIter
}.

(** Calls on the outside world, recorded as they are made. *)
Inductive event :=
| EvGoto (url : string) (r : goto_outcome)
| EvClick (origin : string) (r : click_outcome)
| EvBack (ok : bool)
| EvFetch (url : string)
| EvStatic (url : string).

Definition is_click (e : event) : bool :=
  match e with EvClick _ _ => true | _ => false end.

Definition is_fetch (e : event) : bool :=
  match e with EvFetch _ => true | _ => false end.

Definition is_static (e : event) : bool :=
  match e with EvStatic _ => true | _ => false end.

Definition goto_ok (g : goto_outcome) : bool :=
  match g with GotoOk => true | _ => false end.

(** [pages[k] = v] on an insertion-ordered [dict]: an existing key keeps its
    place and gets the new value, a new key goes to the end. *)
Fixpoint dict_set {V} (k : string) (v : V) (d : list (string * V)) : list (string * V) :=
  match d with
  | [] => [(k, v)]
  | (k', v') :: d' =>
      if String.eqb k' k then (k, v) :: d' else (k', v') :: dict_set k v d'
  end.

(** * Click discovery

    [click_discover_links] of 3webmap_playwright.py and [click_discover] of
    final_webmap.py are the same loop; they differ in the normaliser, in the
    same-site test applied to the URL reached, and in their timeouts. *)

Section ClickDiscovery.
Context (W : World).
Variable normalize : string → string.
(** the test on [new_url] that guards [discovered.add] *)
Variable same_site : string → bool.

Record click_state := {
  cs_tab : tab W;
  cs_clicks : nat;
  cs_found : gset string;
  cs_trace : list event
}.

Inductive flow := Continue | Break.

(** [nav_happened] after the [try] around the click. *)
Definition nav_happened (before_url : string) (r : click_outcome) (after : tab W) : bool :=
  match r with
  | ClickNavigated => true
  | ClickTimeout => negb (String.eqb (tab_url W after) before_url)
  | ClickError => false
  end.

(** One turn of [for el in handles], behind the budget test. *)
Definition click_candidate (el : handle W) (st : click_state) : flow * click_state :=
  if negb (el_has_box W el (cs_tab st)) then (Continue, st)
  else
    let before_url := tab_url W (cs_tab st) in
    let '(r, t1) := el_click W el (cs_tab st) in
    let clicks := S (cs_clicks st) in
    let tr := cs_trace st ++ [EvClick before_url r] in
    if nav_happened before_url r t1 then
      let new_url := normalize (tab_url W t1) in
      let found :=
        if same_site new_url && negb (String.eqb new_url (normalize before_url))
        then {[new_url]} ∪ cs_found st else cs_found st in
      match tab_go_back W t1 with
      | (true, t2) =>
          (Continue, {| cs_tab := t2; cs_clicks := clicks; cs_found := found;
                        cs_trace := tr ++ [EvBack true] |})
      | (false, t2) =>
          let '(g, t3) := tab_goto W before_url t2 in
          (if goto_ok g then Continue else Break,
           {| cs_tab := t3; cs_clicks := clicks; cs_found := found;
              cs_trace := tr ++ [EvBack false; EvGoto before_url g] |})
      end
    else
      (Continue, {| cs_tab := t1; cs_clicks := clicks; cs_found := cs_found st;
                    cs_trace := tr |}).

Fixpoint click_loop (max_clicks : nat) (handles : list (handle W)) (st : click_state) : click_state :=
  match handles with
  | [] => st
  | el :: rest =>
      if (max_clicks <=? cs_clicks st)%nat then st
      else match click_candidate el st with
           | (Continue, st') => click_loop max_clicks rest st'
           | (Break, st') => st'
           end
  end.

Definition click_start (t : tab W) : click_state :=
  {| cs_tab := t; cs_clicks := 0; cs_found := ∅; cs_trace := [] |}.

(** The whole function: the set discovered, with the tab and the calls made. *)
Definition discover (t : tab W) (max_clicks : nat) : click_state :=
  match tab_candidates W t with
  | None => click_start t
  | Some handles => click_loop max_clicks handles (click_start t)
  end.

End ClickDiscovery.

Arguments cs_tab {W} _.
Arguments cs_clicks {W} _.
Arguments cs_found {W} _.
Arguments cs_trace {W} _.

(** * The crawl loop

    [crawl] is the same [while] loop in both scripts, around a different
    treatment of the page: [visit] is that treatment, [page_value] the list
    stored in [pages].  [max_pages] is the integer of the command line, of
    either sign; the click budget is a count (the scripts pass 50 and 5). *)

Inductive visit_result :=
| Recorded (all_links : gset string)
  (** the turn reaches [pages[url] = ...] *)
| Abandoned.
  (** the turn ends in [continue] behind [visited.add(url)] *)

Section CrawlLoop.
Context (W : World).
Variable max_pages : Z.
Variable visit : string → tab W → visit_result * tab W * list event.
Variable page_value : gset string → list string.

Record crawl_state := {
  visited : gset string;
  queue : list string;
  pages : list (string * list string);
  cr_tab : tab W;
  cr_trace : list event
}.

(** [for link in all_links: if link not in visited and
    len(pages) + len(queue) < max_pages * 2: queue.append(link)] *)
Definition enqueue_links (visited : gset string) (npages : nat)
    (links : list string) (queue : list string) : list string :=
  foldl (λ q link,
           if bool_decide (link ∉ visited)
              && (Z.of_nat npages + Z.of_nat (length q) <? max_pages * 2)%Z
           then q ++ [link] else q)
        queue links.

(** One turn of [while queue and len(pages) < max_pages]; [None] when the
    loop condition is false. *)
Definition crawl_step (st : crawl_state) : option crawl_state :=
  match queue st with
  | [] => None
  | url :: rest =>
      if negb (Z.of_nat (length (pages st)) <? max_pages)%Z then None
      else if bool_decide (url ∈ visited st) then
        Some {| visited := visited st; queue := rest; pages := pages st;
                cr_tab := cr_tab st; cr_trace := cr_trace st |}
      else
        let visited' := {[url]} ∪ visited st in
        let '(res, t', tr) := visit url (cr_tab st) in
        match res with
        | Abandoned =>
            Some {| visited := visited'; queue := rest; pages := pages st;
                    cr_tab := t'; cr_trace := cr_trace st ++ tr |}
        | Recorded all_links =>
            let pages' := dict_set url (page_value all_links) (pages st) in
            Some {| visited := visited';
                    queue := enqueue_links visited' (length pages')
                               (set_order W all_links) rest;
                    pages := pages'; cr_tab := t';
                    cr_trace := cr_trace st ++ tr |}
        end
  end.

Definition crawl_init (start_url : string) (t : tab W) : crawl_state :=
  {| visited := ∅; queue := [start_url]; pages := []; cr_tab := t; cr_trace := [] |}.

Fixpoint crawl_loop (fuel : nat) (st : crawl_state) : crawl_state :=
  match fuel with
  | O => st
  | S fuel' =>
      match crawl_step st with
      | None => st
      | Some st' => crawl_loop fuel' st'
      end
  end.

(** A number of turns that the loop never needs in full. *)
Definition crawl_fuel : nat :=
  let m := Z.to_nat max_pages in S (S ((2 * m + 1) * m)).

Definition crawl_run (start_url : string) (t : tab W) : crawl_state :=
  crawl_loop crawl_fuel (crawl_init start_url t).

(** The states the loop goes through. *)
Inductive crawl_reach (start_url : string) (t : tab W) : crawl_state → Prop :=
| reach_init : crawl_reach start_url t (crawl_init start_url t)
| reach_step st st' :
    crawl_reach start_url t st → crawl_step st = Some st' →
    crawl_reach start_url t st'.

End CrawlLoop.

Arguments visited {W} _.
Arguments queue {W} _.
Arguments pages {W} _.
Arguments cr_tab {W} _.
Arguments cr_trace {W} _.

(** * Tree nodes

    A node [dict] with its [name], [url], [children] and the internal
    [_path] key, and the node that is left when [clean] has popped [_path]. *)

#[local] Unset Elimination Schemes.
Inductive node :=
| Node (name : string) (url : option string) (children : list node) (_path : string).

Inductive tree :=
| Tree (name : string) (url : option string) (children : list tree).

#[local] Set Elimination Schemes.

Definition node_name (n : node) : string := let 'Node x _ _ _ := n in x.
Definition node_url (n : node) : option string := let 'Node _ u _ _ := n in u.
Definition node_children (n : node) : list node := let 'Node _ _ c _ := n in c.
Definition node_path (n : node) : string := let 'Node _ _ _ p := n in p.

Definition tree_name (n : tree) : string := let 'Tree x _ _ := n in x.
Definition tree_url (n : tree) : option string := let 'Tree _ u _ := n in u.
Definition tree_children (n : tree) : list tree := let 'Tree _ _ c := n in c.

(** [node["url"] = url] *)
Definition set_url (url : string) (n : node) : node :=
  let 'Node x _ c p := n in Node x (Some url) c p.

Fixpoint clean (n : node) : tree :=
  let 'Node x u c _ := n in Tree x u (map clean c).

(** The first child whose [_path] is [seg_path], rewritten by [f]; [None]
    when the scan of [parent["children"]] finds none. *)
Fixpoint update_child (seg_path : string) (f : node → node) (cs : list node) : option (list node) :=
  match cs with
  | [] => None
  | c :: cs' =>
      if String.eqb (node_path c) seg_path then Some (f c :: cs')
      else match update_child seg_path f cs' with
           | Some r => Some (c :: r)
           | None => None
           end
  end.

(** [find_or_create(parent, seg_path, label)] followed by what the caller
    does to the node it gets back ([f]): Python hands out a reference to the
    child and mutates it in place, here the child is rewritten where it
    sits.  [fresh_url] is the [url] a newly created child starts with. *)
Definition find_or_create_then (fresh_url : option string) (seg_path label : string)
    (f : node → node) (parent : node) : node :=
  let 'Node x u cs p := parent in
  match update_child seg_path f cs with
  | Some cs' => Node x u cs' p
  | None => Node x u (cs ++ [f (Node label fresh_url [] seg_path)]) p
  end.

(** * 3webmap_playwright.py *)

Module Webmap_playwright.
Import Py.

(** [normalize(link)], on a [str]. *)
Definition normalize (link : string) : string :=
  if is_empty link then link
  else
    let link := before_char "#" link in
    let link := before_char "?" link in
    rstrip "/" link.

(** The same function on a value that may be [None]: [not None] is true,
    and the argument is returned as it came. *)
Definition normalize_py (link : option string) : option string :=
  match link with
  | None => None
  | Some l => Some (normalize l)
  end.

(** [urlparse(u).netloc == domain] *)
Definition same_netloc (domain u : string) : bool :=
  String.eqb (Url.netloc (Url.urlparse u)) domain.

(** The body shared by the extraction loops: every absolute URL whose
    [netloc] is [domain] is normalised and added to the set. *)
Definition keep_links (domain : string) (urls : list string) : gset string :=
  list_to_set (normalize <$> filter (λ a, same_netloc domain a = true) urls).

Section WithWorld.
Context (W : World).

Definition extract_links_static (base_url html : string) : gset string :=
  keep_links (Url.netloc (Url.urlparse base_url)) (anchor_urls W base_url html).

Definition extract_links_from_dom (t : tab W) (domain : string) : gset string :=
  match tab_content W t with
  | None => ∅
  | Some html => keep_links domain (anchor_urls W (tab_url W t) html)
  end.

Definition extract_js_nav_links (t : tab W) (base_url domain : string)
    : gset string * gset string :=
  (keep_links domain (onclick_urls W base_url t),
   keep_links domain (data_urls W base_url t)).

Definition click_discover_links (t : tab W) (base_url domain : string)
    (max_clicks : nat) : click_state W :=
  discover W normalize (same_netloc domain) t max_clicks.

(** The result of steps 1 to 5 of a turn of [crawl]: [page_ok], the links
    of the rendered channels, the tab and the calls made. *)
Record rendered := {
  page_ok : bool;
  rendered_links : gset string;
  rendered_tab : tab W;
  rendered_trace : list event
}.

Definition render_page (domain : string) (max_clicks_per_page : nat)
    (url : string) (t : tab W) : rendered :=
  let '(g, t1) := tab_goto W url t in
  if goto_ok g then
    let t2 := tab_expand_menus W (tab_scroll W t1) in
    let html_links := extract_links_from_dom t2 domain in
    let '(onclick_links, router_links) := extract_js_nav_links t2 url domain in
    let all_links : gset string := ∅ ∪ (html_links ∪ onclick_links ∪ router_links) in
    let st := click_discover_links t2 url domain max_clicks_per_page in
    {| page_ok := true; rendered_links := all_links ∪ cs_found st;
       rendered_tab := cs_tab st;
       rendered_trace := EvGoto url g :: cs_trace st |}
  else
    {| page_ok := false; rendered_links := ∅; rendered_tab := t1;
       rendered_trace := [EvGoto url g] |}.

(** The fallback path: [all_links] behind it, and the calls made. *)
Definition fallback (url : string) (r : rendered) : gset string * list event :=
  if bool_decide (rendered_links r = ∅) && negb (page_ok r) then
    match fetch_html W url with
    | Some html =>
        if is_empty html then (rendered_links r, [EvFetch url])
        else (extract_links_static url html, [EvFetch url; EvStatic url])
    | None => (rendered_links r, [EvFetch url])
    end
  else (rendered_links r, []).

(** The body of the loop between [visited.add(url)] and [pages[url] = ...]. *)
Definition visit (domain : string) (max_clicks_per_page : nat)
    (url : string) (t : tab W) : visit_result * tab W * list event :=
  let r := render_page domain max_clicks_per_page url t in
  let '(all_links, tr) := fallback url r in
  (Recorded all_links, rendered_tab r, rendered_trace r ++ tr).

(** [crawl(start_url, max_pages, delay, max_clicks_per_page)], from the
    state [t0] of the new tab: the final state of the loop. *)
Definition crawl_state_of (start_url : string) (max_pages : Z)
    (max_clicks_per_page : nat) (t0 : tab W) : crawl_state W :=
  let domain := Url.netloc (Url.urlparse start_url) in
  crawl_run W max_pages (visit domain max_clicks_per_page) (set_order W)
    start_url t0.

(** What [crawl] returns: [pages], each value being the list under
    ["links"]. *)
Definition crawl (start_url : string) (max_pages : Z)
    (max_clicks_per_page : nat) (t0 : tab W) : list (string * list string) :=
  pages (crawl_state_of start_url max_pages max_clicks_per_page t0).

End WithWorld.

(** [norm] of [build_tree]: [parsed.path.strip("/")]. *)
Definition norm_path (url : string) : string :=
  strip "/" (Url.path (Url.urlparse url)).

(** [url_by_path]: a later key replaces an earlier one with the same path. *)
Definition url_by_path (keys : list string) : gmap string string :=
  foldl (λ m url, <[norm_path url := url]> m) ∅ keys.

(** The loop [for seg in segments], then [node["url"] = url]. *)
Fixpoint descend (by_path : gmap string string) (accumulated segments : list string)
    (url : string) (n : node) : node :=
  match segments with
  | [] => set_url url n
  | seg :: rest =>
      let accumulated := accumulated ++ [seg] in
      let seg_path := join "/" accumulated in
      find_or_create_then (by_path !! seg_path) seg_path seg
        (descend by_path accumulated rest url) n
  end.

(** One turn of the second [for url in pages.keys()]. *)
Definition add_url (by_path : gmap string string) (root : node) (url : string) : node :=
  let p := norm_path url in
  if is_empty p then root
  else descend by_path [] (split_char "/" p) url root.

Definition build_nodes (start_url : string) (keys : list string) : node :=
  let domain := Url.netloc (Url.urlparse start_url) in
  let root := Node domain (Some start_url) [] "" in
  foldl (add_url (url_by_path keys)) root keys.

(** [build_tree(start_url, pages)]; only the keys of [pages] are read, in
    the order of the [dict]. *)
Definition build_tree (start_url : string) (pages : list (string * list string)) : tree :=
  clean (build_nodes start_url pages.*1).

End Webmap_playwright.

(** * final/final_webmap.py *)

Module Final_webmap.
Import Py.

(** [normalize(url)], on a [str]. *)
Definition normalize (url : string) : string :=
  if is_empty url then url
  else
    let url := before_char "#" url in
    let url := before_char "?" url in
    match split_once "://" url with
    | Some (scheme, rest) =>
        let rest :=
          if ends_with_char "/" rest && (1 <? count "/" rest)%nat
          then rstrip "/" rest else rest in
        scheme +:+ "://" +:+ rest
    | None =>
        if ends_with_char "/" url && (1 <? count "/" url)%nat
        then rstrip "/" url else url
    end.

Definition normalize_py (url : option string) : option string :=
  match url with
  | None => None
  | Some u => Some (normalize u)
  end.

(** [net[4:] if net.startswith("www.") else net] *)
Definition strip_www (net : string) : string :=
  if startswith "www." net then drop 4 net else net.

Definition root_domain (url : string) : string :=
  strip_www (lower (Url.netloc (Url.urlparse url))).

(** The test on a host that both link channels apply:
    [netcmp.endswith(root_dom)]. *)
Definition host_accepted (root_dom host : string) : bool :=
  endswith root_dom (strip_www (lower host)).

Definition same_site (root_dom u : string) : bool :=
  host_accepted root_dom (Url.netloc (Url.urlparse u)).

Section WithWorld.
Context (W : World).

Definition extract_links_from_dom (t : tab W) (root_dom : string) : gset string :=
  match tab_content W t with
  | None => ∅
  | Some html =>
      list_to_set
        (normalize <$> filter (λ full, same_site root_dom full = true)
                         (anchor_urls W (tab_url W t) html))
  end.

Definition click_discover (t : tab W) (root_dom : string) (max_clicks : nat)
    : click_state W :=
  discover W normalize (same_site root_dom) t max_clicks.

(** [sorted(all_links)] *)
Definition sorted (I : SetIter) (X : gset string) : list string :=
  merge_sort String.le (I X).

(** The body of the loop between [visited.add(url)] and [pages[url] = ...];
    [except Exception] around [tab.goto] ends the turn with [continue]. *)
Definition visit (base_root : string) (url : string) (t : tab W)
    : visit_result * tab W * list event :=
  let '(g, t1) := tab_goto W url t in
  match g with
  | GotoError => (Abandoned, t1, [EvGoto url g])
  | _ =>
      let t2 := tab_expand_menus W (tab_scroll W t1) in
      let html_links := extract_links_from_dom t2 base_root in
      let st := click_discover t2 base_root 5 in
      (Recorded (html_links ∪ cs_found st), cs_tab st,
       EvGoto url g :: cs_trace st)
  end.

Definition crawl_state_of (start_url : string) (max_pages : Z) (t0 : tab W)
    : crawl_state W :=
  let base_root := root_domain start_url in
  crawl_run W max_pages (visit base_root) (sorted (set_order W)) start_url t0.

(** [crawl(start_url, max_pages)] *)
Definition crawl (start_url : string) (max_pages : Z) (t0 : tab W)
    : list (string * list string) :=
  pages (crawl_state_of start_url max_pages t0).

End WithWorld.

(** The loop [for seg in segments], then [node["url"] = url]. *)
Fixpoint descend (accum : string) (segments : list string) (url : string)
    (n : node) : node :=
  match segments with
  | [] => set_url url n
  | seg :: rest =>
      let accum := if is_empty accum then "/" +:+ seg else accum +:+ "/" +:+ seg in
      find_or_create_then None accum accum (descend accum rest url) n
  end.

(** The segments of a path: [[seg for seg in path.strip("/").split("/") if seg]]. *)
Definition segments_of (path : string) : list string :=
  filter (λ seg, is_empty seg = false) (split_char "/" (strip "/" path)).

(** One turn of [for url in sorted(domain_urls)]. *)
Definition add_url (root : node) (url : string) : node :=
  let path := Url.path (Url.urlparse url) in
  let path := if is_empty path then "/" else path in
  let path := before_char "#" path in
  if String.eqb path "/" || String.eqb path "" then root
  else descend "" (segments_of path) url root.

(** [all_urls]: the keys of [pages] and every link under them. *)
Definition all_urls (pages : list (string * list string)) : gset string :=
  list_to_set pages.*1 ∪ ⋃ (list_to_set <$> pages.*2).

Definition domain_urls (domain : string) (pages : list (string * list string)) : gset string :=
  filter (λ url, url ≠ "" ∧ Url.netloc (Url.urlparse url) = domain) (all_urls pages).

Definition root_of (first_url : string) : node :=
  let p := Url.urlparse first_url in
  let scheme := if is_empty (Url.scheme p) then "https" else Url.scheme p in
  let domain := Url.netloc p in
  Node (domain +:+ "/") (Some (scheme +:+ "://" +:+ domain +:+ "/")) [] "".

(** [build_tree_from_pages(pages)]; [None] is the empty [dict] returned for
    no pages.  [I] is the order in which [domain_urls] is walked when
    [sorted] reads it. *)
Definition build_tree_from_pages (I : SetIter) (pages : list (string * list string))
    : option tree :=
  match pages with
  | [] => None
  | (first_url, _) :: _ =>
      let domain := Url.netloc (Url.urlparse first_url) in
      Some (clean (foldl add_url (root_of first_url)
                     (merge_sort String.le (I (domain_urls domain pages)))))
  end.

End Final_webmap.

(** * The normaliser as the specification words it

    "Strips everything after the first [#] and first [?]; strips one trailing
    path separator unless the remaining path is the origin root."  Kept apart
    from the two implementations, to be compared with them. *)

Module Spec.
Import Py.

(** Removes exactly one trailing character. *)
Fixpoint drop_last (s : string) : string :=
  match s with
  | EmptyString => EmptyString
  | String _ EmptyString => EmptyString
  | String a s' => String a (drop_last s')
  end.

Definition strip_one_separator (s : string) : string :=
  if ends_with_char "/" s then drop_last s else s.

(** The remaining path is the origin root. *)
Definition origin_root (s : string) : bool :=
  String.eqb (Url.path (Url.urlparse s)) "/".

Definition normalize (u : string) : string :=
  if is_empty u then u
  else
    let s := before_char "?" (before_char "#" u) in
    if origin_root s then s else strip_one_separator s.

End Spec.

(** * Scripted worlds

    Small sites to run the scripts on.  The tab is on a URL and remembers
    the one it was on before; a page's markup is named by its URL. *)

Module Sim.

Definition elements_iter : SetIter :=
  {| iter := elements; iter_perm := λ X, reflexivity (elements X) |}.

Record site := {
  (** the absolute URLs of the anchors of a page *)
  site_links : string → list string;
  (** what [goto] does for a URL *)
  site_goto : string → goto_outcome;
  (** the clickable elements of a page: what the click does and the URL the
      tab is on afterwards *)
  site_buttons : string → list (click_outcome * string);
  (** whether [go_back] works *)
  site_back : bool;
  site_fetch : string → option string
}.

Definition world (s : site) : World := {|
  tab := string * string;
  handle := click_outcome * string;
  tab_url t := fst t;
  tab_goto u t :=
    (site_goto s u,
     match site_goto s u with GotoError => t | _ => (u, fst t) end);
  tab_scroll t := t;
  tab_expand_menus t := t;
  tab_content t := Some (fst t);
  anchor_urls base html := site_links s html;
  onclick_urls _ _ := [];
  data_urls _ _ := [];
  tab_candidates t := Some (site_buttons s (fst t));
  el_has_box _ _ := true;
  el_click el t := (fst el, (snd el, fst t));
  tab_go_back t := if site_back s then (true, (snd t, snd t)) else (false, t);
  fetch_html := site_fetch s;
  set_order := elements_iter
|}.

Definition blank : string * string := ("about:blank", "about:blank").

(** The tab on a page. *)
Definition on (url : string) : string * string := (url, "about:blank").


(** The start page links to two pages, and the one of them that is visited
    first links to the other. *)
Definition twice_site : site := {|
  site_links u :=
    if String.eqb u "https://ex.com" then ["https://ex.com/b"; "https://ex.com/c"]
    else if String.eqb u "https://ex.com/c" then ["https://ex.com/b"]
    else [];
  site_goto _ := GotoOk;
  site_buttons _ := [];
  site_back := true;
  site_fetch _ := None
|}.



(** A site whose pages time out in the tab and are served to the fallback. *)
Definition slow_site : site := {|
  site_links u :=
    if String.eqb u "<a href=/about>" then ["https://ex.com/about"] else [];
  site_goto _ := GotoTimeout;
  site_buttons _ := [];
  site_back := true;
  site_fetch u :=
    if String.eqb u "https://ex.com" then Some "<a href=/about>" else None
|}.

(** A page with three clickable elements. *)
Definition menu_site : site := {|
  site_links _ := [];
  site_goto _ := GotoOk;
  site_buttons u :=
    if String.eqb u "https://a.com"
    then [(ClickNavigated, "https://a.com/p"); (ClickTimeout, "https://a.com");
          (ClickTimeout, "https://a.com/q")]
    else [];
  site_back := true;
  site_fetch _ := None
|}.

End Sim.

(** * Notions used in the statements *)

Module Aux.
Import Py.

(** What is left of a URL in front of its first [#] and first [?]. *)
Definition cut (u : string) : string := before_char "?" (before_char "#" u).


(** The trailing-separator rule of final_webmap.py, on the part of the URL
    it is applied to. *)
Definition slash_rule (s : string) : string :=
  if ends_with_char "/" s && (1 <? count "/" s)%nat then rstrip "/" s else s.

(** The click attempts among the calls made. *)
Definition attempts (tr : list event) : nat := length (List.filter is_click tr).




(** A link that passed a same-site test: the test held of the URL itself
    (the URL a click led to) or of the absolute URL it is the normal form of
    (the other channels). *)
Definition from_site (normalize : string → string) (accepts : string → bool)
    (u : string) : Prop :=
  accepts u = true ∨ ∃ a, accepts a = true ∧ u = normalize a.

(** What holds of every state of the crawl loop: a recorded page is a
    visited one, no page is recorded twice, and the two bounds. *)
Definition crawl_inv {W : World} (max_pages : Z) (st : crawl_state W) : Prop :=
  (∀ k, k ∈ (pages st).*1 → k ∈ visited st)
  ∧ NoDup (pages st).*1
  ∧ (Z.of_nat (length (pages st)) ≤ Z.max 0 max_pages)%Z
  ∧ (1 ≤ max_pages →
     Z.of_nat (length (pages st)) + Z.of_nat (length (queue st)) ≤ 2 * max_pages)%Z.


(** No node of the tree has two children with the same [_path]. *)
Fixpoint distinct_paths (n : node) : Prop :=
  let 'Node _ _ cs _ := n in
  NoDup (node_path <$> cs)
  ∧ (fix all (l : list node) : Prop :=
       match l with
       | [] => True
       | c :: l' => distinct_paths c ∧ all l'
       end) cs.


(** The frontier invariant as the specification words it: a URL is in the
    queue at most once and never when it is visited, and visited plus queued
    stay below twice the page budget. *)
Definition frontier_claim {W : World} (max_pages : Z) (st : crawl_state W) : Prop :=
  NoDup (queue st)
  ∧ (∀ u, u ∈ queue st → u ∉ visited st)
  ∧ (Z.of_nat (size (visited st)) + Z.of_nat (length (queue st)) < 2 * max_pages)%Z.

End Aux.

(** * Further notions *)

Module More.

(** An adjacency map is rooted at [start]: every key but [start] is among the
    links of a key that comes before it. *)
Definition rooted (start : string) (pages : list (string * list string)) : Prop :=
  ∀ p1 k v p2,
    pages = p1 ++ (k, v) :: p2 →
    k = start ∨ ∃ k' l, (k', l) ∈ p1 ∧ k ∈ l.

(** A URL is the start URL or a link of a recorded page. *)
Definition linked (start : string) (pages : list (string * list string))
    (u : string) : Prop :=
  u = start ∨ ∃ k l, (k, l) ∈ pages ∧ u ∈ l.

(** No node of a tree has two children with the same name. *)
Fixpoint distinct_names (n : tree) : Prop :=
  let 'Tree _ _ cs := n in
  NoDup (tree_name <$> cs)
  ∧ (fix all (l : list tree) : Prop :=
       match l with
       | [] => True
       | c :: l' => distinct_names c ∧ all l'
       end) cs.

(** The shape of the nodes of [build_tree]: a node reached through the
    segments [acc] has the [_path] that joins them, and each child is reached
    through the segments of its parent and its own name. *)
Fixpoint shaped (acc : list string) (n : node) : Prop :=
  let 'Node _ _ cs p := n in
  p = Py.join "/" acc
  ∧ (fix all (l : list node) : Prop :=
       match l with
       | [] => True
       | c :: l' => shaped (acc ++ [node_name c]) c ∧ all l'
       end) cs.

(** The shape of the nodes of [build_tree_from_pages]: every node below the
    root is named by its [_path]. *)
Fixpoint named_by_path (n : node) : Prop :=
  let 'Node _ _ cs _ := n in
  (fix all (l : list node) : Prop :=
     match l with
     | [] => True
     | c :: l' => (node_name c = node_path c ∧ named_by_path c) ∧ all l'
     end) cs.

(** The [_path] and [url] of a node and of every node below it. *)
Fixpoint entries (n : node) : list (string * option string) :=
  let 'Node _ u cs p := n in
  (p, u) :: (fix all (l : list node) : list (string * option string) :=
               match l with
               | [] => []
               | c :: l' => entries c ++ all l'
               end) cs.

(** The [url] of a node and of every node below it. *)
Fixpoint urls (n : tree) : list (option string) :=
  let 'Tree _ u cs := n in
  u :: (fix all (l : list tree) : list (option string) :=
          match l with
          | [] => []
          | c :: l' => urls c ++ all l'
          end) cs.

(** Every key of [l] with a path has a node with that path, which carries a
    key of [l] with that path. *)
Definition webmap_covered (l : list string) (root : node) : Prop :=
  ∀ k, k ∈ l → Webmap_playwright.norm_path k ≠ "" →
    ∃ k', k' ∈ l
          ∧ Webmap_playwright.norm_path k' = Webmap_playwright.norm_path k
          ∧ (Webmap_playwright.norm_path k, Some k') ∈ entries root.

(** One turn of [accum = accum + "/" + seg if accum else "/" + seg]. *)
Definition final_step (accum seg : string) : string :=
  if Py.is_empty accum then "/" +:+ seg else accum +:+ "/" +:+ seg.

(** [accum] after the loop over [segments]: the [_path] of the node that the
    loop ends at. *)
Definition final_accum (segments : list string) : string :=
  foldl final_step "" segments.

(** The segments that [build_tree_from_pages] walks for a URL; [None] when
    the URL is skipped as the root-level path. *)
Definition final_route (url : string) : option (list string) :=
  let path := Url.path (Url.urlparse url) in
  let path := if Py.is_empty path then "/" else path in
  let path := Py.before_char "#" path in
  if String.eqb path "/" || String.eqb path "" then None
  else Some (Final_webmap.segments_of path).

(** Every URL of [l] that is walked has a node with its accumulated path,
    which carries a URL of [l] with that accumulated path. *)
Definition final_covered (l : list string) (root : node) : Prop :=
  ∀ u segs, u ∈ l → final_route u = Some segs →
    ∃ u' segs', u' ∈ l ∧ final_route u' = Some segs'
                ∧ final_accum segs' = final_accum segs
                ∧ (final_accum segs', Some u') ∈ entries root.

(** [start_url] of [main]: the normalised argument, with [https://] put
    before it when it starts with neither [http://] nor [https://]. *)
Definition main_start_url (normalize : string → string) (arg : string) : string :=
  let start_url := normalize arg in
  if negb (Py.startswith "http://" start_url)
     && negb (Py.startswith "https://" start_url)
  then "https://" +:+ start_url
  else start_url.

End More.

(** * Facts about the string primitives *)

Section PyFacts.
Import Py.

Lemma app_cons a s t : String a s +:+ t = String a (s +:+ t).
Proof. reflexivity. Qed.

Lemma app_empty_l t : "" +:+ t = t.
Proof. reflexivity. Qed.

Lemma app_assoc' s t u : (s +:+ t) +:+ u = s +:+ t +:+ u.
Proof. induction s as [|a s IH]; [done|]. by rewrite !app_cons, IH. Qed.

Lemma length_app' s t :
  String.length (s +:+ t) = (String.length s + String.length t)%nat.
Proof. induction s as [|a s IH]; [done|]. rewrite app_cons. simpl. by rewrite IH. Qed.

Lemma before_char_no_char c s : has_char c (before_char c s) = false.
Proof.
  induction s as [|a s IH]; simpl; [done|].
  destruct (Ascii.eqb a c) eqn:E; simpl; [done|]. by rewrite E.
Qed.

Lemma before_char_id c s : has_char c s = false → before_char c s = s.
Proof.
  induction s as [|a s IH]; simpl; [done|].
  destruct (Ascii.eqb a c); simpl; [done|]. intros H. by rewrite IH.
Qed.

Lemma before_char_keeps d c s :
  has_char d s = false → has_char d (before_char c s) = false.
Proof.
  induction s as [|a s IH]; simpl; [done|].
  intros [H1 H2]%orb_false_iff.
  destruct (Ascii.eqb a c); simpl; [done|]. rewrite H1. by apply IH.
Qed.

Lemma rstrip_keeps d c s :
  has_char d s = false → has_char d (rstrip c s) = false.
Proof.
  induction s as [|a s IH]; simpl; [done|].
  intros [H1 H2]%orb_false_iff. specialize (IH H2).
  destruct (rstrip c s) eqn:E.
  - destruct (Ascii.eqb a c); simpl; [done|]. by rewrite H1.
  - simpl. rewrite H1. exact IH.
Qed.

Lemma rstrip_not_ends c s : ends_with_char c (rstrip c s) = false.
Proof.
  induction s as [|a s IH]; simpl; [done|].
  destruct (rstrip c s) eqn:E.
  - destruct (Ascii.eqb a c) eqn:Ea; simpl; [done|]. exact Ea.
  - exact IH.
Qed.

Lemma rstrip_id c s : ends_with_char c s = false → rstrip c s = s.
Proof.
  induction s as [|a s IH]; simpl; [done|].
  destruct s as [|b s].
  - simpl. by intros ->.
  - intros H. rewrite (IH H). done.
Qed.

Lemma rstrip_idem c s : rstrip c (rstrip c s) = rstrip c s.
Proof. apply rstrip_id, rstrip_not_ends. Qed.

Lemma has_char_app d s t :
  has_char d (s +:+ t) = has_char d s || has_char d t.
Proof.
  induction s as [|a s IH]; [done|].
  rewrite app_cons. simpl. by rewrite IH, orb_assoc.
Qed.

Lemma startswith_app p s t :
  (String.length p ≤ String.length s)%nat →
  startswith p (s +:+ t) = startswith p s.
Proof.
  revert s. induction p as [|a p IH]; intros [|b s]; simpl; try done; try lia.
  intros H. rewrite IH; [done|lia].
Qed.

Lemma startswith_drop p s :
  startswith p s = true → s = p +:+ drop (String.length p) s.
Proof.
  revert s. induction p as [|a p IH]; intros [|b s]; simpl; try done.
  intros [H1 H2]%andb_true_iff. apply Ascii.eqb_eq in H1 as ->.
  rewrite app_cons. f_equal. by apply IH.
Qed.

Lemma startswith_self_app p t : startswith p (p +:+ t) = true.
Proof.
  induction p as [|a p IH]; [done|].
  rewrite app_cons. simpl. by rewrite Ascii.eqb_refl, IH.
Qed.

Lemma drop_length_app p t : drop (String.length p) (p +:+ t) = t.
Proof. induction p as [|a p IH]; [by destruct t|]. by rewrite app_cons. Qed.

(** The pieces of [split_once] rebuild the string, and cutting at the same
    place succeeds whatever follows the separator. *)
Lemma split_once_Some sep s h t :
  split_once sep s = Some (h, t) → s = h +:+ sep +:+ t.
Proof.
  revert h t. induction s as [|a s IH]; intros h t; simpl.
  - destruct (startswith sep "") eqn:E; [|done].
    intros [= <- <-]. destruct sep; [done|discriminate].
  - destruct (startswith sep (String a s)) eqn:E.
    + intros [= <- <-]. rewrite app_empty_l. by apply startswith_drop.
    + destruct (split_once sep s) as [[h' t']|]; [|done].
      intros [= <- <-]. rewrite app_cons. f_equal. by apply IH.
Qed.

Lemma split_once_retail sep s h t t' :
  sep ≠ "" →
  split_once sep s = Some (h, t) →
  split_once sep (h +:+ sep +:+ t') = Some (h, t').
Proof.
  intros Hsep. revert h t. induction s as [|a s IH]; intros h t; simpl.
  - destruct (startswith sep "") eqn:E; [|done].
    destruct sep; [done|discriminate].
  - destruct (startswith sep (String a s)) eqn:E.
    + intros [= <- <-]. rewrite app_empty_l.
      destruct sep as [|c sep]; [done|].
      rewrite app_cons. cbn [split_once]. rewrite <- app_cons.
      by rewrite startswith_self_app, drop_length_app.
    + destruct (split_once sep s) as [[h' t0]|] eqn:Hs; [|done].
      intros [= <- <-].
      pose proof (split_once_Some _ _ _ _ Hs) as Hrebuild.
      rewrite app_cons. cbn [split_once].
      assert (startswith sep (String a (h' +:+ sep +:+ t')) = false) as ->.
      { rewrite Hrebuild in E.
        rewrite <- app_cons, <- app_assoc' in E |- *.
        rewrite startswith_app in E |- *; try done.
        all: rewrite length_app'; simpl; lia. }
      by rewrite (IH _ _ eq_refl).
Qed.

End PyFacts.

(** * The URL normaliser *)

Section NormalizeFacts.
Import Py Aux.

Lemma cut_no_hash u : has_char "#" (cut u) = false.
Proof. unfold cut. apply before_char_keeps, before_char_no_char. Qed.

Lemma cut_no_query u : has_char "?" (cut u) = false.
Proof. unfold cut. apply before_char_no_char. Qed.

Lemma cut_id s :
  has_char "#" s = false → has_char "?" s = false → cut s = s.
Proof. intros H1 H2. unfold cut. by rewrite (before_char_id _ _ H1), before_char_id. Qed.



Lemma app_empty_r s : s +:+ "" = s.
Proof. induction s as [|a s IH]; [done|]. by rewrite app_cons, IH. Qed.


Lemma slash_rule_idem s : slash_rule (slash_rule s) = slash_rule s.
Proof.
  unfold slash_rule at 2.
  destruct (ends_with_char "/" s && (1 <? count "/" s)%nat) eqn:E.
  - unfold slash_rule. by rewrite rstrip_not_ends, E.
  - unfold slash_rule. by rewrite !E.
Qed.

Lemma slash_rule_keeps d s :
  has_char d s = false → has_char d (slash_rule s) = false.
Proof.
  intros H. unfold slash_rule.
  destruct (ends_with_char "/" s && (1 <? count "/" s)%nat); [|done].
  by apply rstrip_keeps.
Qed.

(** [normalize] of final_webmap.py, read off a cut URL. *)
Lemma final_normalize_cut u :
  Final_webmap.normalize u =
    match split_once "://" (cut u) with
    | Some (scheme, rest) => scheme +:+ "://" +:+ slash_rule rest
    | None => slash_rule (cut u)
    end.
Proof.
  unfold Final_webmap.normalize. destruct u as [|a u]; [done|].
  cbn [is_empty]. fold (cut (String a u)).
  by destruct (split_once "://" (cut (String a u))) as [[sch rest]|].
Qed.

Lemma webmap_normalize_cut u : Webmap_playwright.normalize u = rstrip "/" (cut u).
Proof. unfold Webmap_playwright.normalize. by destruct u. Qed.

Lemma final_normalize_clean d u :
  has_char d (cut u) = false → has_char d (Final_webmap.normalize u) = false.
Proof.
  intros H. rewrite final_normalize_cut.
  destruct (split_once "://" (cut u)) as [[sch rest]|] eqn:E.
  - apply split_once_Some in E. rewrite E in H.
    rewrite !has_char_app in H |- *.
    apply orb_false_iff in H as [H1 H2]. apply orb_false_iff in H2 as [H2 H3].
    by rewrite H1, H2, slash_rule_keeps.
  - by apply slash_rule_keeps.
Qed.

Lemma startswith_take_false p s k :
  startswith p s = false → startswith p (Py.take k s) = false.
Proof.
  revert s k. induction p as [|x p IH]; intros s k; [done|].
  destruct s as [|y s]; [by destruct k|]. destruct k as [|k]; [done|].
  simpl. destruct (Ascii.eqb x y); [|done]. simpl. apply IH.
Qed.

Lemma split_once_None_keep sep s :
  split_once sep s = None → ∀ k, split_once sep (Py.take k s) = None.
Proof.
  induction s as [|a s IH]; intros H k.
  - by destruct k.
  - destruct k as [|k].
    + simpl in *. by destruct sep.
    + cbn [Py.take split_once]. cbn [split_once] in H.
      destruct (startswith sep (String a s)) eqn:E; [done|].
      change (String a (Py.take k s)) with (Py.take (S k) (String a s)).
      rewrite (startswith_take_false _ _ (S k) E).
      destruct (split_once sep s) as [[h t]|] eqn:Hs; [done|].
      by rewrite (IH eq_refl k).
Qed.

Lemma rstrip_take c s : ∃ k, rstrip c s = Py.take k s.
Proof.
  induction s as [|a s [k IH]]; simpl.
  - by exists 0%nat.
  - destruct (rstrip c s) eqn:E.
    + destruct (Ascii.eqb a c); [by exists 0%nat|exists 1%nat; by destruct s].
    + exists (S k). simpl. by rewrite IH.
Qed.

Lemma slash_rule_take s : ∃ k, slash_rule s = Py.take k s.
Proof.
  unfold slash_rule.
  destruct (ends_with_char "/" s && (1 <? count "/" s)%nat).
  - apply rstrip_take.
  - exists (String.length s). induction s as [|a s IH]; [done|]. simpl. by f_equal.
Qed.

(** C1: the URL normaliser is idempotent, in both scripts:
    [normalize(normalize(u)) == normalize(u)] for every string [u]. *)
Theorem normalize_idempotent (u : string) :
  Webmap_playwright.normalize (Webmap_playwright.normalize u)
    = Webmap_playwright.normalize u
  ∧ Final_webmap.normalize (Final_webmap.normalize u) = Final_webmap.normalize u.
Proof.
  split.
  - rewrite !webmap_normalize_cut.
    rewrite (cut_id (rstrip "/" (cut u))).
    + apply rstrip_idem.
    + apply rstrip_keeps, cut_no_hash.
    + apply rstrip_keeps, cut_no_query.
  - pose proof (final_normalize_clean "#" u (cut_no_hash u)) as Hh.
    pose proof (final_normalize_clean "?" u (cut_no_query u)) as Hq.
    rewrite (final_normalize_cut (Final_webmap.normalize u)).
    rewrite (cut_id _ Hh Hq).
    rewrite (final_normalize_cut u).
    destruct (split_once "://" (cut u)) as [[sch rest]|] eqn:E.
    + rewrite (split_once_retail "://" (cut u) sch rest (slash_rule rest)); [|done|done].
      by rewrite slash_rule_idem.
    + assert (split_once "://" (slash_rule (cut u)) = None) as ->.
      { destruct (slash_rule_take (cut u)) as [k ->]. by apply split_once_None_keep. }
      apply slash_rule_idem.
Qed.



Lemma ends_with_char_app c s : ends_with_char c (s +:+ String c "") = true.
Proof.
  induction s as [|a s IH]; [apply Ascii.eqb_refl|].
  rewrite app_cons. cbn [ends_with_char].
  destruct (s +:+ String c "") eqn:E; [by destruct s|exact IH].
Qed.

Lemma ends_with_char_app_r c p r :
  r ≠ "" → ends_with_char c (p +:+ r) = ends_with_char c r.
Proof.
  intros Hr. induction p as [|a p IH]; [done|].
  rewrite app_cons. cbn [ends_with_char].
  destruct (p +:+ r) eqn:E; [|exact IH].
  destruct p; [by rewrite app_empty_l in E|by rewrite app_cons in E].
Qed.





End NormalizeFacts.

(** * The same-site test of final_webmap.py *)

Section SameSiteFacts.
Import Py.

Lemma take_drop n s : Py.take n s +:+ Py.drop n s = s.
Proof.
  revert s. induction n as [|n IH]; intros [|a s]; simpl; try done.
  change (String a (Py.take n s) +:+ Py.drop n s = String a s).
  by rewrite app_cons, IH.
Qed.

(** [endswith] holds exactly of the strings that are some prefix followed by
    the suffix. *)
Lemma endswith_spec suffix s :
  endswith suffix s = true ↔ ∃ p, s = p +:+ suffix.
Proof.
  unfold endswith. rewrite andb_true_iff, Nat.leb_le, String.eqb_eq. split.
  - intros [_ H]. exists (Py.take (String.length s - String.length suffix) s).
    pose proof (take_drop (String.length s - String.length suffix) s) as E.
    by rewrite H in E.
  - intros [p ->]. rewrite length_app'. split; [lia|].
    replace (String.length p + String.length suffix - String.length suffix)%nat
      with (String.length p) by lia.
    apply drop_length_app.
Qed.


End SameSiteFacts.

(** * Click discovery *)

(** The ways through one turn of the click loop: no box, no navigation seen,
    back navigation done, origin loaded again or not. *)
Ltac click_cases W el st :=
  unfold click_candidate;
  destruct (el_has_box W el (cs_tab st)); cbn [negb];
  [ let r := fresh "r" in
    let t1 := fresh "t" in
    destruct (el_click W el (cs_tab st)) as [r t1];
    destruct (nav_happened W (tab_url W (cs_tab st)) r t1);
    [ let t2 := fresh "t" in
      destruct (tab_go_back W t1) as [[|] t2];
      [ | let g := fresh "g" in
          let t3 := fresh "t" in
          destruct (tab_goto W (tab_url W (cs_tab st)) t2) as [g t3] ]
    | ]
  | ].

Section ClickFacts.
Import Aux.
Context (W : World) (normalize : string → string) (same_site : string → bool).

Local Abbreviation candidate := (click_candidate W normalize same_site).
Local Abbreviation loop := (click_loop W normalize same_site).

Lemma attempts_app tr1 tr2 : attempts (tr1 ++ tr2) = (attempts tr1 + attempts tr2)%nat.
Proof. unfold attempts. by rewrite List.filter_app, length_app. Qed.

(** A candidate without a box is passed over; any other is clicked once and
    pays one unit, whatever the click does. *)
Lemma candidate_budget el st :
  if el_has_box W el (cs_tab st)
  then cs_clicks (candidate el st).2 = S (cs_clicks st)
       ∧ attempts (cs_trace (candidate el st).2) = S (attempts (cs_trace st))
  else candidate el st = (Continue, st).
Proof.
  click_cases W el st; [..|done]; simpl; rewrite ?attempts_app;
    (split; [done|]); unfold attempts; simpl; lia.
Qed.

Lemma candidate_no_fetch el st :
  existsb is_fetch (cs_trace (candidate el st).2) = existsb is_fetch (cs_trace st).
Proof.
  click_cases W el st; [..|done]; simpl; rewrite ?existsb_app; simpl;
    by rewrite ?orb_false_r.
Qed.

Lemma loop_budget max handles st :
  (attempts (cs_trace st) = cs_clicks st →
   attempts (cs_trace (loop max handles st)) = cs_clicks (loop max handles st))
  ∧ ((cs_clicks st ≤ max)%nat → (cs_clicks (loop max handles st) ≤ max)%nat).
Proof.
  revert st. induction handles as [|el rest IH]; intros st; [done|].
  cbn [click_loop].
  destruct (max <=? cs_clicks st)%nat eqn:Hmax; [done|].
  apply Nat.leb_gt in Hmax.
  pose proof (candidate_budget el st) as Hc.
  destruct (candidate el st) as [fl st'] eqn:E.
  destruct (el_has_box W el (cs_tab st)).
  - destruct Hc as [Hc1 Hc2]. cbn [snd] in *.
    destruct fl.
    + destruct (IH st') as [IH1 IH2]. split; intros H.
      * apply IH1. lia.
      * apply IH2. lia.
    + split; intros H; lia.
  - injection Hc as -> ->. apply IH.
Qed.

Lemma loop_no_fetch max handles st :
  existsb is_fetch (cs_trace (loop max handles st)) = existsb is_fetch (cs_trace st).
Proof.
  revert st. induction handles as [|el rest IH]; intros st; [done|].
  cbn [click_loop].
  destruct (max <=? cs_clicks st)%nat; [done|].
  pose proof (candidate_no_fetch el st) as Hc.
  destruct (candidate el st) as [[|] st']; cbn [snd] in Hc; [|done].
  by rewrite IH.
Qed.

Lemma discover_budget t max :
  attempts (cs_trace (discover W normalize same_site t max))
    = cs_clicks (discover W normalize same_site t max)
  ∧ (cs_clicks (discover W normalize same_site t max) ≤ max)%nat.
Proof.
  unfold discover. destruct (tab_candidates W t) as [handles|].
  - destruct (loop_budget max handles (click_start W t)) as [H1 H2].
    split; [by apply H1|apply H2; simpl; lia].
  - simpl. split; [done|lia].
Qed.

Lemma discover_no_fetch t max :
  existsb is_fetch (cs_trace (discover W normalize same_site t max)) = false.
Proof.
  unfold discover. destruct (tab_candidates W t) as [handles|]; [|done].
  by rewrite loop_no_fetch.
Qed.



End ClickFacts.

(** C6: on every page at most [max_clicks] click attempts are made, in
    both scripts, and a candidate that is attempted pays exactly one unit of
    the budget whatever the click does; a candidate without a box is
    passed over and pays nothing. *)
Theorem click_budget_enforced (W : World) (t : tab W)
    (base_url domain root_dom : string) (max_clicks : nat) :
  (Aux.attempts (cs_trace (Webmap_playwright.click_discover_links W t base_url domain max_clicks))
     = cs_clicks (Webmap_playwright.click_discover_links W t base_url domain max_clicks)
   ∧ (cs_clicks (Webmap_playwright.click_discover_links W t base_url domain max_clicks)
        ≤ max_clicks)%nat)
  ∧ (Aux.attempts (cs_trace (Final_webmap.click_discover W t root_dom max_clicks))
       = cs_clicks (Final_webmap.click_discover W t root_dom max_clicks)
     ∧ (cs_clicks (Final_webmap.click_discover W t root_dom max_clicks) ≤ max_clicks)%nat)
  ∧ (∀ normalize same_site (el : handle W) (st : click_state W),
       if el_has_box W el (cs_tab st)
       then cs_clicks (click_candidate W normalize same_site el st).2 = S (cs_clicks st)
            ∧ Aux.attempts (cs_trace (click_candidate W normalize same_site el st).2)
              = S (Aux.attempts (cs_trace st))
       else click_candidate W normalize same_site el st = (Continue, st))
  ∧ cs_clicks (Webmap_playwright.click_discover_links (Sim.world Sim.menu_site)
                 (Sim.on "https://a.com") "https://a.com" "a.com" 2) = 2%nat
  ∧ cs_clicks (Final_webmap.click_discover (Sim.world Sim.menu_site)
                 (Sim.on "https://a.com") "a.com" 2) = 2%nat.
Proof.
  split_and!.
  - apply discover_budget.
  - apply discover_budget.
  - apply discover_budget.
  - apply discover_budget.
  - intros. apply candidate_budget.
  - by vm_compute.
  - by vm_compute.
Qed.




(** * The fallback of 3webmap_playwright.py *)

Section FallbackFacts.
Import Webmap_playwright.
Context (W : World).

Lemma render_page_ok domain max_clicks url t :
  page_ok W (render_page W domain max_clicks url t) = goto_ok (tab_goto W url t).1.
Proof.
  unfold render_page. destruct (tab_goto W url t) as [g t1]. simpl.
  by destruct (goto_ok g).
Qed.

Lemma render_page_no_fetch domain max_clicks url t :
  existsb is_fetch (rendered_trace W (render_page W domain max_clicks url t)) = false.
Proof.
  unfold render_page. destruct (tab_goto W url t) as [g t1].
  destruct (goto_ok g); [|done]. simpl. apply discover_no_fetch.
Qed.


Lemma fallback_fetches url r :
  existsb is_fetch (fallback W url r).2
  = negb (page_ok W r) && bool_decide (rendered_links W r = ∅).
Proof.
  unfold fallback. rewrite (andb_comm (negb _)).
  destruct (bool_decide (rendered_links W r = ∅) && negb (page_ok W r)); [|done].
  destruct (fetch_html W url) as [html|]; [|done].
  by destruct (Py.is_empty html).
Qed.

Lemma fallback_static_behind_fetch url r :
  existsb is_static (fallback W url r).2 && negb (existsb is_fetch (fallback W url r).2)
  = false.
Proof.
  unfold fallback.
  destruct (bool_decide (rendered_links W r = ∅) && negb (page_ok W r)); [|done].
  destruct (fetch_html W url) as [html|]; [|done].
  by destruct (Py.is_empty html).
Qed.

Lemma visit_trace domain max_clicks url t :
  (visit W domain max_clicks url t).2
  = rendered_trace W (render_page W domain max_clicks url t)
    ++ (fallback W url (render_page W domain max_clicks url t)).2.
Proof.
  unfold visit. by destruct (fallback W url _) as [links tr].
Qed.

End FallbackFacts.

(** C7: for every URL taken from the queue by 3webmap_playwright.py, the
    plain fetch of the fallback is made exactly when the navigation did not
    succeed and the union of the links of the rendered channels is empty,
    and the static extractor runs only behind that fetch; a page that was
    rendered never triggers the fallback, with zero links either. *)
Theorem fallback_gating (W : World) (domain : string) (max_clicks : nat)
    (url : string) (t : tab W) :
  Webmap_playwright.page_ok W (Webmap_playwright.render_page W domain max_clicks url t)
    = goto_ok (tab_goto W url t).1
  ∧ existsb is_fetch (Webmap_playwright.visit W domain max_clicks url t).2
    = negb (Webmap_playwright.page_ok W
              (Webmap_playwright.render_page W domain max_clicks url t))
      && bool_decide
           (Webmap_playwright.rendered_links W
              (Webmap_playwright.render_page W domain max_clicks url t) = ∅)
  ∧ goto_ok (tab_goto W url t).1
    && existsb is_fetch (Webmap_playwright.visit W domain max_clicks url t).2 = false
  ∧ existsb is_static
      (Webmap_playwright.fallback W url
         (Webmap_playwright.render_page W domain max_clicks url t)).2
    && negb (existsb is_fetch (Webmap_playwright.visit W domain max_clicks url t).2)
    = false
  ∧ Webmap_playwright.visit (Sim.world Sim.menu_site) "a.com" 50 "https://a.com/none"
      Sim.blank
    = (Recorded ∅, (Sim.on "https://a.com/none"), [EvGoto "https://a.com/none" GotoOk])
  ∧ Webmap_playwright.visit (Sim.world Sim.slow_site) "ex.com" 50 "https://ex.com"
      Sim.blank
    = (Recorded {["https://ex.com/about"]}, (Sim.on "https://ex.com"),
       [EvGoto "https://ex.com" GotoTimeout; EvFetch "https://ex.com";
        EvStatic "https://ex.com"]).
Proof.
  assert (existsb is_fetch (Webmap_playwright.visit W domain max_clicks url t).2
          = negb (Webmap_playwright.page_ok W
                    (Webmap_playwright.render_page W domain max_clicks url t))
            && bool_decide
                 (Webmap_playwright.rendered_links W
                    (Webmap_playwright.render_page W domain max_clicks url t) = ∅)) as Hf.
  { rewrite visit_trace, existsb_app, render_page_no_fetch. apply fallback_fetches. }
  split_and!.
  - apply render_page_ok.
  - exact Hf.
  - rewrite Hf, render_page_ok. by destruct (goto_ok _).
  - rewrite visit_trace, existsb_app, render_page_no_fetch.
    apply fallback_static_behind_fetch.
  - by vm_compute.
  - by vm_compute.
Qed.

(** * The crawl loop *)

Section CrawlFacts.
Import Aux.
Context (W : World) (max_pages : Z).
Context (visit : string → tab W → visit_result * tab W * list event).
Context (page_value : gset string → list string).

Local Abbreviation step := (crawl_step W max_pages visit page_value).
Local Abbreviation reach := (crawl_reach W max_pages visit page_value).

Lemma dict_set_fresh {V} k (v : V) (d : list (string * V)) :
  k ∉ d.*1 → dict_set k v d = d ++ [(k, v)].
Proof.
  induction d as [|[k' v'] d IH]; simpl; [done|].
  intros [Hne H]%not_elem_of_cons.
  destruct (String.eqb_spec k' k); [congruence|]. by rewrite IH.
Qed.

Lemma enqueue_links_cons vis n a links q :
  enqueue_links max_pages vis n (a :: links) q
  = enqueue_links max_pages vis n links
      (if bool_decide (a ∉ vis)
          && (Z.of_nat n + Z.of_nat (length q) <? max_pages * 2)%Z
       then q ++ [a] else q).
Proof. reflexivity. Qed.

(** What the enqueueing loop appends: links of the page that are not
    visited, as long as recorded plus queued is below twice the budget. *)
Lemma enqueue_links_spec vis n links q :
  ∃ added,
    enqueue_links max_pages vis n links q = q ++ added
    ∧ (∀ u, u ∈ added → u ∈ links ∧ u ∉ vis)
    ∧ (Z.of_nat n + Z.of_nat (length (q ++ added))
       ≤ Z.max (Z.of_nat n + Z.of_nat (length q)) (max_pages * 2))%Z
    ∧ (added ≠ [] → (Z.of_nat n + Z.of_nat (length q) < max_pages * 2)%Z).
Proof.
  revert q. induction links as [|a links IH]; intros q.
  - exists []. rewrite app_nil_r. split_and!; [done| |lia|done].
    intros u Hu. by apply elem_of_nil in Hu.
  - rewrite enqueue_links_cons.
    destruct (bool_decide (a ∉ vis)
              && (Z.of_nat n + Z.of_nat (length q) <? max_pages * 2)%Z) eqn:E.
    + apply andb_true_iff in E as [Ha Hlt].
      apply bool_decide_eq_true in Ha. apply Z.ltb_lt in Hlt.
      destruct (IH (q ++ [a])) as (added & Heq & Hin & Hb & _).
      exists (a :: added). split_and!; [| | |done].
      * by rewrite Heq, <- app_assoc.
      * intros u [->|Hu]%elem_of_cons.
        -- split; [apply elem_of_cons; by left|done].
        -- destruct (Hin u Hu). split; [apply elem_of_cons; by right|done].
      * rewrite <- app_assoc in Hb. cbn [app] in Hb.
        repeat rewrite length_app in Hb. rewrite length_app. simpl in *. lia.
    + destruct (IH q) as (added & Heq & Hin & Hb & Hne).
      exists added. split_and!; [done| |done|done].
      intros u Hu. destruct (Hin u Hu). split; [apply elem_of_cons; by right|done].
Qed.

(** The three ways a turn of the loop can go. *)
Lemma step_inv st st' :
  step st = Some st' →
  ∃ url rest,
    queue st = url :: rest
    ∧ (Z.of_nat (length (pages st)) < max_pages)%Z
    ∧ ((url ∈ visited st
        ∧ st' = {| visited := visited st; queue := rest; pages := pages st;
                   cr_tab := cr_tab st; cr_trace := cr_trace st |})
       ∨ ((url ∉ visited st)
          ∧ ∃ t' tr, visit url (cr_tab st) = (Abandoned, t', tr)
            ∧ st' = {| visited := ({[url]} ∪ visited st); queue := rest;
                       pages := pages st; cr_tab := t';
                       cr_trace := cr_trace st ++ tr |})
       ∨ ((url ∉ visited st)
          ∧ ∃ links t' tr, visit url (cr_tab st) = (Recorded links, t', tr)
            ∧ st' = {| visited := ({[url]} ∪ visited st);
                       queue := enqueue_links max_pages ({[url]} ∪ visited st)
                                  (length (dict_set url (page_value links) (pages st)))
                                  (set_order W links) rest;
                       pages := dict_set url (page_value links) (pages st);
                       cr_tab := t'; cr_trace := cr_trace st ++ tr |})).
Proof.
  unfold crawl_step. destruct (queue st) as [|url rest]; [done|].
  destruct (Z.of_nat (length (pages st)) <? max_pages)%Z eqn:Hlt; [|done].
  apply Z.ltb_lt in Hlt. cbn [negb].
  destruct (bool_decide (url ∈ visited st)) eqn:Hv.
  - apply bool_decide_eq_true in Hv. intros [= <-].
    exists url, rest. split_and!; [done|done|]. by left.
  - apply bool_decide_eq_false in Hv.
    destruct (visit url (cr_tab st)) as [[[links|] t'] tr] eqn:Ev; intros [= <-];
      exists url, rest; (split_and!; [done|done|]); right.
    + right. split; [done|]. by exists links, t', tr.
    + left. split; [done|]. by exists t', tr.
Qed.

Lemma inv_init start t : crawl_inv max_pages (crawl_init W start t).
Proof.
  unfold crawl_inv. simpl. split_and!; [|constructor|lia|lia].
  intros k Hk. by apply elem_of_nil in Hk.
Qed.

Lemma inv_step st st' :
  crawl_inv max_pages st → step st = Some st' → crawl_inv max_pages st'.
Proof.
  intros (Hsub & Hnd & Hp & Hb) Hs.
  apply step_inv in Hs as (url & rest & Hq & Hlt & Hs).
  destruct Hs as [[Hv ->]|[(Hv & t' & tr & _ & ->)|(Hv & links & t' & tr & _ & ->)]];
    unfold crawl_inv; simpl.
  - rewrite Hq in Hb. simpl in Hb. split_and!; [done|done|done|lia].
  - rewrite Hq in Hb. simpl in Hb. split_and!; [|done|done|lia].
    intros k Hk. apply elem_of_union_r. by apply Hsub.
  - assert (url ∉ (pages st).*1) as Hfresh by (intros Hk; by apply Hv, Hsub).
    rewrite (dict_set_fresh _ _ _ Hfresh).
    destruct (enqueue_links_spec ({[url]} ∪ visited st)
                (length (pages st ++ [(url, page_value links)]))
                (set_order W links) rest) as (added & -> & _ & Hbound & _).
    rewrite fmap_app, length_app in *. simpl in *.
    split_and!.
    + intros k [Hk|Hk]%elem_of_app.
      * apply elem_of_union_r. by apply Hsub.
      * apply list_elem_of_singleton in Hk as ->. apply elem_of_union_l. by apply elem_of_singleton.
    + apply NoDup_app. split_and!; [done| |apply NoDup_singleton].
      intros k Hk Hk'. apply list_elem_of_singleton in Hk' as ->. done.
    + lia.
    + intros H1. specialize (Hb H1). rewrite Hq in Hb. simpl in Hb. lia.
Qed.

Lemma inv_reach start t st : reach start t st → crawl_inv max_pages st.
Proof.
  induction 1 as [|st st' _ IH Hs]; [apply inv_init|by eapply inv_step].
Qed.



Lemma loop_reach start t fuel st :
  reach start t st → reach start t (crawl_loop W max_pages visit page_value fuel st).
Proof.
  revert st. induction fuel as [|fuel IH]; intros st Hr; [done|].
  cbn [crawl_loop]. destruct (step st) as [st'|] eqn:E; [|done].
  apply IH. by eapply reach_step.
Qed.


Lemma run_reach start t :
  reach start t (crawl_run W max_pages visit page_value start t).
Proof. apply loop_reach, reach_init. Qed.

(** When the loop is left. *)
Lemma step_None st :
  step st = None ↔ queue st = [] ∨ (max_pages ≤ Z.of_nat (length (pages st)))%Z.
Proof.
  unfold crawl_step. destruct (queue st) as [|url rest].
  - split; [by left|done].
  - destruct (Z.of_nat (length (pages st)) <? max_pages)%Z eqn:Hlt; cbn [negb].
    + apply Z.ltb_lt in Hlt. split.
      * destruct (bool_decide (url ∈ visited st)); [done|].
        by destruct (visit url (cr_tab st)) as [[[links|] t'] tr].
      * intros [?|?]; [done|lia].
    + apply Z.ltb_ge in Hlt. split; [by right|done].
Qed.


(** When no page is abandoned, the visited URLs are the recorded ones. *)
Lemma reach_all_recorded start t st :
  (∀ url t0, (visit url t0).1.1 ≠ Abandoned) →
  reach start t st → ∀ k, k ∈ visited st → k ∈ (pages st).*1.
Proof.
  intros Hv. induction 1 as [|st st' Hr IH Hs]; intros k Hk.
  - by apply not_elem_of_empty in Hk.
  - pose proof (inv_reach _ _ _ Hr) as (Hsub & _).
    apply step_inv in Hs as (url & rest & Hq & Hlt & Hs).
    destruct Hs as [[Hu ->]|[(Hu & t' & tr & Ev & ->)|(Hu & links & t' & tr & Ev & ->)]];
      simpl in *.
    + by apply IH.
    + specialize (Hv url (cr_tab st)). by rewrite Ev in Hv.
    + assert (url ∉ (pages st).*1) as Hfresh by (intros Hk'; by apply Hu, Hsub).
      rewrite (dict_set_fresh _ _ _ Hfresh), fmap_app. apply elem_of_app.
      apply elem_of_union in Hk as [Hk|Hk].
      * right. apply elem_of_singleton in Hk as ->. simpl. apply list_elem_of_singleton. done.
      * left. by apply IH.
Qed.

Lemma size_visited_recorded start t st :
  (∀ url t0, (visit url t0).1.1 ≠ Abandoned) →
  reach start t st → size (visited st) = length (pages st).
Proof.
  intros Hv Hr. pose proof (inv_reach _ _ _ Hr) as (Hsub & Hnd & _).
  rewrite <- (length_fmap fst (pages st)).
  rewrite <- (size_list_to_set (C:=gset string) _ Hnd).
  f_equal. apply set_eq. intros k. rewrite elem_of_list_to_set. split.
  - by eapply reach_all_recorded.
  - apply Hsub.
Qed.

(** What a turn of the loop appends to the queue. *)
Lemma step_admits (P : string → string → Prop) st st' :
  (∀ url t links t' tr,
     visit url t = (Recorded links, t', tr) → ∀ u, u ∈ links → P url u) →
  step st = Some st' →
  ∃ url rest added,
    queue st = url :: rest ∧ queue st' = rest ++ added
    ∧ (added ≠ [] →
       (Z.of_nat (length (pages st')) + Z.of_nat (length rest) < 2 * max_pages)%Z)
    ∧ ∀ u, u ∈ added → (u ∉ visited st') ∧ P url u.
Proof.
  intros HP Hs. apply step_inv in Hs as (url & rest & Hq & Hlt & Hs).
  exists url, rest.
  destruct Hs as [[Hv ->]|[(Hv & t' & tr & _ & ->)|(Hv & links & t' & tr & Ev & ->)]];
    simpl.
  - exists []. rewrite app_nil_r. split_and!; [done|done|done|].
    intros u Hu. by apply elem_of_nil in Hu.
  - exists []. rewrite app_nil_r. split_and!; [done|done|done|].
    intros u Hu. by apply elem_of_nil in Hu.
  - destruct (enqueue_links_spec ({[url]} ∪ visited st)
                (length (dict_set url (page_value links) (pages st)))
                (set_order W links) rest) as (added & Heq & Hin & _ & Hlt').
    exists added. split_and!; [done|done|intros Hne; specialize (Hlt' Hne); lia|].
    intros u Hu. destruct (Hin u Hu) as [Hl Hnv]. split; [done|].
    apply (HP _ _ _ _ _ Ev).
    rewrite (iter_perm (set_order W) links) in Hl. by apply elem_of_elements in Hl.
Qed.

(** What a turn of the loop does to [pages]: nothing, or one new record at
    the end, for a URL that had none. *)
Lemma step_records st st' :
  crawl_inv max_pages st → step st = Some st' →
  (pages st' = pages st
   ∧ (visited st' = visited st
      ∨ ∃ url t' tr, visit url (cr_tab st) = (Abandoned, t', tr)
                     ∧ visited st' = {[url]} ∪ visited st))
  ∨ ∃ url rest links t' tr,
      queue st = url :: rest ∧ (url ∉ visited st) ∧ (url ∉ (pages st).*1)
      ∧ visit url (cr_tab st) = (Recorded links, t', tr)
      ∧ pages st' = pages st ++ [(url, page_value links)]
      ∧ visited st' = {[url]} ∪ visited st.
Proof.
  intros (Hsub & _) Hs. apply step_inv in Hs as (url & rest & Hq & Hlt & Hs).
  destruct Hs as [[Hv ->]|[(Hv & t' & tr & Ev & ->)|(Hv & links & t' & tr & Ev & ->)]];
    simpl.
  - left. split; [done|by left].
  - left. split; [done|right]. by exists url, t', tr.
  - right. exists url, rest, links, t', tr.
    assert (url ∉ (pages st).*1) as Hfresh by (intros Hk; by apply Hv, Hsub).
    by rewrite (dict_set_fresh _ _ _ Hfresh).
Qed.

End CrawlFacts.

(** * Where the links of a page come from *)

Section LinkFacts.
Import Aux.
Context (W : World).

Lemma candidate_found normalize same_site (el : handle W) st u :
  u ∈ cs_found (click_candidate W normalize same_site el st).2 →
  u ∈ cs_found st ∨ same_site u = true.
Proof.
  unfold click_candidate.
  destruct (el_has_box W el (cs_tab st)); [|by left]. cbn [negb].
  destruct (el_click W el (cs_tab st)) as [r t1].
  destruct (nav_happened W (tab_url W (cs_tab st)) r t1); [|by left].
  assert (∀ X : gset string,
            u ∈ (if same_site (normalize (tab_url W t1))
                    && negb (String.eqb (normalize (tab_url W t1))
                               (normalize (tab_url W (cs_tab st))))
                 then {[normalize (tab_url W t1)]} ∪ X else X) →
            u ∈ X ∨ same_site u = true) as Hadd.
  { intros X. destruct (same_site (normalize (tab_url W t1))) eqn:E; simpl; [|by left].
    destruct (negb _); [|by left].
    intros [->%elem_of_singleton|H]%elem_of_union; [by right|by left]. }
  destruct (tab_go_back W t1) as [[|] t2]; [exact (Hadd _)|].
  destruct (tab_goto W (tab_url W (cs_tab st)) t2) as [g t3]. exact (Hadd _).
Qed.

Lemma loop_found normalize same_site max (handles : list (handle W)) st u :
  u ∈ cs_found (click_loop W normalize same_site max handles st) →
  u ∈ cs_found st ∨ same_site u = true.
Proof.
  revert st. induction handles as [|el rest IH]; intros st; [by left|].
  cbn [click_loop]. destruct (max <=? cs_clicks st)%nat; [by left|].
  pose proof (candidate_found normalize same_site el st u) as Hc.
  destruct (click_candidate W normalize same_site el st) as [[|] st']; cbn [snd] in Hc.
  - intros [H|H]%IH; [by apply Hc|by right].
  - exact Hc.
Qed.

Lemma discover_found normalize same_site t max u :
  u ∈ cs_found (discover W normalize same_site t max) → same_site u = true.
Proof.
  unfold discover. destruct (tab_candidates W t) as [handles|].
  - intros [H|H]%loop_found; [by apply not_elem_of_empty in H|done].
  - intros H. by apply not_elem_of_empty in H.
Qed.

Lemma keep_links_from domain l u :
  u ∈ Webmap_playwright.keep_links domain l →
  from_site Webmap_playwright.normalize (Webmap_playwright.same_netloc domain) u.
Proof.
  unfold Webmap_playwright.keep_links.
  rewrite elem_of_list_to_set, list_elem_of_fmap.
  intros (a & -> & [Ha _]%list_elem_of_filter). right. by exists a.
Qed.

(** 3webmap_playwright.py: a link of a page passed the test against the
    crawl's domain, or, on the fallback path, against the page's own host. *)
Lemma webmap_visit_links domain max_clicks url t links t' tr u :
  Webmap_playwright.visit W domain max_clicks url t = (Recorded links, t', tr) →
  u ∈ links →
  from_site Webmap_playwright.normalize (Webmap_playwright.same_netloc domain) u
  ∨ from_site Webmap_playwright.normalize
      (Webmap_playwright.same_netloc (Url.netloc (Url.urlparse url))) u.
Proof.
  unfold Webmap_playwright.visit.
  assert (∀ v, v ∈ Webmap_playwright.rendered_links W
                     (Webmap_playwright.render_page W domain max_clicks url t) →
               from_site Webmap_playwright.normalize
                 (Webmap_playwright.same_netloc domain) v) as Hr.
  { unfold Webmap_playwright.render_page.
    destruct (tab_goto W url t) as [g t1]. destruct (goto_ok g); simpl.
    - intros v. rewrite !elem_of_union.
      intros [[Hv|[[Hv|Hv]|Hv]]|Hv].
      + by apply not_elem_of_empty in Hv.
      + unfold Webmap_playwright.extract_links_from_dom in Hv.
        destruct (tab_content W _); [by eapply keep_links_from|].
        by apply not_elem_of_empty in Hv.
      + by eapply keep_links_from.
      + by eapply keep_links_from.
      + left. by eapply discover_found.
    - intros v Hv. by apply not_elem_of_empty in Hv. }
  unfold Webmap_playwright.fallback.
  destruct (bool_decide _ && negb _).
  - destruct (fetch_html W url) as [html|].
    + destruct (Py.is_empty html); intros [= <- _ _] Hu; [left; by apply Hr|].
      right. by eapply keep_links_from.
    + intros [= <- _ _] Hu. left. by apply Hr.
  - intros [= <- _ _] Hu. left. by apply Hr.
Qed.

(** final_webmap.py: a link of a page passed the suffix test against the
    root domain of the start URL. *)
Lemma final_visit_links base_root url t links t' tr u :
  Final_webmap.visit W base_root url t = (Recorded links, t', tr) →
  u ∈ links →
  from_site Final_webmap.normalize (Final_webmap.same_site base_root) u.
Proof.
  unfold Final_webmap.visit. destruct (tab_goto W url t) as [g t1].
  assert (u ∈ Final_webmap.extract_links_from_dom W
                (tab_expand_menus W (tab_scroll W t1)) base_root
              ∪ cs_found (Final_webmap.click_discover W
                            (tab_expand_menus W (tab_scroll W t1)) base_root 5) →
          from_site Final_webmap.normalize (Final_webmap.same_site base_root) u) as H.
  { intros [Hu|Hu]%elem_of_union.
    - unfold Final_webmap.extract_links_from_dom in Hu.
      destruct (tab_content W _); [|by apply not_elem_of_empty in Hu].
      apply elem_of_list_to_set, list_elem_of_fmap in Hu
        as (a & -> & [Ha _]%list_elem_of_filter).
      right. by exists a.
    - left. by eapply discover_found. }
  destruct g; [|intros [= <- _ _]; exact H|done].
  intros [= <- _ _]. exact H.
Qed.


Lemma webmap_visit_recorded domain max_clicks url t :
  (Webmap_playwright.visit W domain max_clicks url t).1.1 ≠ Abandoned.
Proof.
  unfold Webmap_playwright.visit. by destruct (Webmap_playwright.fallback W url _).
Qed.

End LinkFacts.

(** * The frontier, the exit of the loop and the page records *)

Section CrawlClaims.
Import Aux.
Context (W : World) (start_url : string) (max_pages : Z) (max_clicks : nat).
Context (t0 : tab W).

(** The loop of 3webmap_playwright.py ... *)
Local Abbreviation wvisit :=
  (Webmap_playwright.visit W (Url.netloc (Url.urlparse start_url)) max_clicks).
Local Abbreviation wstep := (crawl_step W max_pages wvisit (set_order W)).
Local Abbreviation wreach :=
  (crawl_reach W max_pages wvisit (set_order W) start_url t0).

(** ... and the loop of final_webmap.py. *)
Local Abbreviation fvisit :=
  (Final_webmap.visit W (Final_webmap.root_domain start_url)).
Local Abbreviation fstep :=
  (crawl_step W max_pages fvisit (Final_webmap.sorted (set_order W))).
Local Abbreviation freach :=
  (crawl_reach W max_pages fvisit (Final_webmap.sorted (set_order W)) start_url t0).

(** C3, amended: in a turn of the crawl loop a URL is appended to the queue
    only if it is a link of the page just visited that passed the same-site
    test and is not in the visited set, and only while recorded plus queued
    is below twice the budget; whether it is queued already is not looked
    at.  In every state a page is recorded at most once, and recorded plus
    queued is at most twice the budget (for a budget of at least one page);
    in 3webmap_playwright.py the recorded pages are the visited ones. *)
Theorem frontier_admission (st st' fs fs' : crawl_state W)
    (Hmax : (1 ≤ max_pages)%Z)
    (Hr : wreach st) (Hs : wstep st = Some st')
    (Hfr : freach fs) (Hfs : fstep fs = Some fs') :
  (∃ url rest added,
     queue st = url :: rest ∧ queue st' = rest ++ added
     ∧ (added ≠ [] →
        (Z.of_nat (length (pages st')) + Z.of_nat (length rest) < 2 * max_pages)%Z)
     ∧ ∀ u, u ∈ added →
         (u ∉ visited st')
         ∧ (from_site Webmap_playwright.normalize
              (Webmap_playwright.same_netloc (Url.netloc (Url.urlparse start_url))) u
            ∨ from_site Webmap_playwright.normalize
                (Webmap_playwright.same_netloc (Url.netloc (Url.urlparse url))) u))
  ∧ (Z.of_nat (size (visited st')) + Z.of_nat (length (queue st')) ≤ 2 * max_pages)%Z
  ∧ NoDup (pages st').*1
  ∧ (∃ url rest added,
       queue fs = url :: rest ∧ queue fs' = rest ++ added
       ∧ (added ≠ [] →
          (Z.of_nat (length (pages fs')) + Z.of_nat (length rest) < 2 * max_pages)%Z)
       ∧ ∀ u, u ∈ added →
           (u ∉ visited fs')
           ∧ from_site Final_webmap.normalize
               (Final_webmap.same_site (Final_webmap.root_domain start_url)) u)
  ∧ (Z.of_nat (length (pages fs')) + Z.of_nat (length (queue fs')) ≤ 2 * max_pages)%Z
  ∧ NoDup (pages fs').*1.
Proof.
  assert (wreach st') as Hr' by (by eapply reach_step).
  assert (freach fs') as Hfr' by (by eapply reach_step).
  pose proof (inv_reach _ _ _ _ _ _ _ Hr') as (_ & Hnd & _ & Hb).
  pose proof (inv_reach _ _ _ _ _ _ _ Hfr') as (_ & Hfnd & _ & Hfb).
  split_and!.
  - apply (step_admits W max_pages wvisit (set_order W)
             (λ url u,
                from_site Webmap_playwright.normalize
                  (Webmap_playwright.same_netloc (Url.netloc (Url.urlparse start_url))) u
                ∨ from_site Webmap_playwright.normalize
                    (Webmap_playwright.same_netloc (Url.netloc (Url.urlparse url))) u));
      [|done].
    intros url t links t' tr Ev u Hu. by eapply webmap_visit_links.
  - rewrite (size_visited_recorded _ _ _ _ _ _ _ (webmap_visit_recorded W _ _) Hr').
    by apply Hb.
  - done.
  - apply (step_admits W max_pages fvisit (Final_webmap.sorted (set_order W))
             (λ _ u, from_site Final_webmap.normalize
                       (Final_webmap.same_site (Final_webmap.root_domain start_url)) u));
      [|done].
    intros url t links t' tr Ev u Hu. by eapply final_visit_links.
  - by apply Hfb.
  - done.
Qed.



End CrawlClaims.

(** C3, as the claim words it, against the code: on the site where the
    page visited first links to the other queued page, that page is in the
    queue twice after two turns, in both scripts; and with a budget of one
    page, visited plus queued reaches twice the budget. *)
Lemma queued_twice :
  (crawl_reach (Sim.world Sim.twice_site) 10
     (Webmap_playwright.visit (Sim.world Sim.twice_site) "ex.com" 50)
     (set_order (Sim.world Sim.twice_site)) "https://ex.com" Sim.blank
     (crawl_loop (Sim.world Sim.twice_site) 10
        (Webmap_playwright.visit (Sim.world Sim.twice_site) "ex.com" 50)
        (set_order (Sim.world Sim.twice_site)) 2
        (crawl_init (Sim.world Sim.twice_site) "https://ex.com" Sim.blank))
   ∧ ¬ Aux.frontier_claim 10
         (crawl_loop (Sim.world Sim.twice_site) 10
            (Webmap_playwright.visit (Sim.world Sim.twice_site) "ex.com" 50)
            (set_order (Sim.world Sim.twice_site)) 2
            (crawl_init (Sim.world Sim.twice_site) "https://ex.com" Sim.blank)))
  ∧ (crawl_reach (Sim.world Sim.twice_site) 10
       (Final_webmap.visit (Sim.world Sim.twice_site) "ex.com")
       (Final_webmap.sorted (set_order (Sim.world Sim.twice_site)))
       "https://ex.com" Sim.blank
       (crawl_loop (Sim.world Sim.twice_site) 10
          (Final_webmap.visit (Sim.world Sim.twice_site) "ex.com")
          (Final_webmap.sorted (set_order (Sim.world Sim.twice_site))) 2
          (crawl_init (Sim.world Sim.twice_site) "https://ex.com" Sim.blank))
     ∧ ¬ Aux.frontier_claim 10
           (crawl_loop (Sim.world Sim.twice_site) 10
              (Final_webmap.visit (Sim.world Sim.twice_site) "ex.com")
              (Final_webmap.sorted (set_order (Sim.world Sim.twice_site))) 2
              (crawl_init (Sim.world Sim.twice_site) "https://ex.com" Sim.blank)))
  ∧ queue (crawl_loop (Sim.world Sim.twice_site) 10
             (Webmap_playwright.visit (Sim.world Sim.twice_site) "ex.com" 50)
             (set_order (Sim.world Sim.twice_site)) 2
             (crawl_init (Sim.world Sim.twice_site) "https://ex.com" Sim.blank))
    = ["https://ex.com/b"; "https://ex.com/b"]
  ∧ (Z.of_nat (size (visited
        (crawl_loop (Sim.world Sim.twice_site) 1
           (Webmap_playwright.visit (Sim.world Sim.twice_site) "ex.com" 50)
           (set_order (Sim.world Sim.twice_site)) 1
           (crawl_init (Sim.world Sim.twice_site) "https://ex.com" Sim.blank))))
     + Z.of_nat (length (queue
        (crawl_loop (Sim.world Sim.twice_site) 1
           (Webmap_playwright.visit (Sim.world Sim.twice_site) "ex.com" 50)
           (set_order (Sim.world Sim.twice_site)) 1
           (crawl_init (Sim.world Sim.twice_site) "https://ex.com" Sim.blank))))
     = 2 * 1)%Z.
Proof.
  split_and!.
  - apply loop_reach, reach_init.
  - intros [Hnd _]. vm_compute in Hnd.
    apply NoDup_cons in Hnd as [Hn _]. apply Hn. by left.
  - apply loop_reach, reach_init.
  - intros [Hnd _]. vm_compute in Hnd.
    apply NoDup_cons in Hnd as [Hn _]. apply Hn. by left.
  - by vm_compute.
  - by vm_compute.
Qed.

(** C3: the amended statement at the first turn of both loops on that
    site, with a budget of ten pages. *)
Lemma frontier_admission_witness :
  NoDup (pages (crawl_loop (Sim.world Sim.twice_site) 10
                  (Webmap_playwright.visit (Sim.world Sim.twice_site) "ex.com" 50)
                  (set_order (Sim.world Sim.twice_site)) 1
                  (crawl_init (Sim.world Sim.twice_site) "https://ex.com" Sim.blank))).*1
  ∧ NoDup (pages (crawl_loop (Sim.world Sim.twice_site) 10
                    (Final_webmap.visit (Sim.world Sim.twice_site) "ex.com")
                    (Final_webmap.sorted (set_order (Sim.world Sim.twice_site))) 1
                    (crawl_init (Sim.world Sim.twice_site) "https://ex.com" Sim.blank))).*1.
Proof.
  destruct (frontier_admission (Sim.world Sim.twice_site) "https://ex.com" 10 50 Sim.blank
              (crawl_init (Sim.world Sim.twice_site) "https://ex.com" Sim.blank)
              (crawl_loop (Sim.world Sim.twice_site) 10
                 (Webmap_playwright.visit (Sim.world Sim.twice_site) "ex.com" 50)
                 (set_order (Sim.world Sim.twice_site)) 1
                 (crawl_init (Sim.world Sim.twice_site) "https://ex.com" Sim.blank))
              (crawl_init (Sim.world Sim.twice_site) "https://ex.com" Sim.blank)
              (crawl_loop (Sim.world Sim.twice_site) 10
                 (Final_webmap.visit (Sim.world Sim.twice_site) "ex.com")
                 (Final_webmap.sorted (set_order (Sim.world Sim.twice_site))) 1
                 (crawl_init (Sim.world Sim.twice_site) "https://ex.com" Sim.blank))
              ltac:(lia)
              (reach_init _ _ _ _ _ _)
              ltac:(vm_compute; reflexivity)
              (reach_init _ _ _ _ _ _)
              ltac:(vm_compute; reflexivity))
    as (_ & _ & H1 & _ & _ & H2).
  split; [exact H1|exact H2].
Defined.





(** * The tree builders *)

Section TreeFacts.
Import Aux.

Lemma distinct_paths_eq n :
  distinct_paths n
  ↔ NoDup (node_path <$> node_children n) ∧ Forall distinct_paths (node_children n).
Proof.
  destruct n as [x u cs p]. cbn [distinct_paths node_children].
  assert ((fix all (l : list node) : Prop :=
             match l with
             | [] => True
             | c :: l' => distinct_paths c ∧ all l'
             end) cs ↔ Forall distinct_paths cs) as ->; [|done].
  induction cs as [|c cs IH]; [by split|].
  rewrite Forall_cons. by rewrite IH.
Qed.

(** The scan of the children finds a child exactly by its [_path]. *)
Lemma update_child_None seg_path f cs :
  update_child seg_path f cs = None ↔ seg_path ∉ node_path <$> cs.
Proof.
  induction cs as [|c cs IH]; simpl.
  - split; [intros _ H; by apply elem_of_nil in H|done].
  - rewrite not_elem_of_cons.
    destruct (String.eqb_spec (node_path c) seg_path) as [->|Hne].
    + split; [done|]. by intros [? _].
    + destruct (update_child seg_path f cs) eqn:E.
      * split; [done|]. intros [_ H]. by apply IH in H.
      * split; [|done]. intros _. split; [done|]. by apply IH.
Qed.

Lemma update_child_Some seg_path f cs cs' :
  update_child seg_path f cs = Some cs' →
  ∃ pre c post, cs = pre ++ c :: post ∧ cs' = pre ++ f c :: post
                ∧ node_path c = seg_path.
Proof.
  revert cs'. induction cs as [|c cs IH]; intros cs'; simpl; [done|].
  destruct (String.eqb_spec (node_path c) seg_path) as [Heq|Hne].
  - intros [= <-]. by exists [], c, cs.
  - destruct (update_child seg_path f cs) as [r|]; [|done].
    intros [= <-]. destruct (IH r eq_refl) as (pre & d & post & -> & -> & Hd).
    by exists (c :: pre), d, post.
Qed.

(** Looking a child up or creating it, and then working on it, keeps the
    paths of the children apart. *)
Lemma find_or_create_then_distinct fresh seg_path label f parent :
  (∀ c, node_path (f c) = node_path c) →
  (∀ c, distinct_paths c → distinct_paths (f c)) →
  distinct_paths parent →
  distinct_paths (find_or_create_then fresh seg_path label f parent)
  ∧ node_path (find_or_create_then fresh seg_path label f parent) = node_path parent.
Proof.
  intros Hp Hd. rewrite !distinct_paths_eq.
  destruct parent as [x u cs p]. cbn [node_children node_path find_or_create_then].
  intros [Hnd Hall].
  destruct (update_child seg_path f cs) as [cs'|] eqn:E; cbn [node_children node_path].
  - apply update_child_Some in E as (pre & c & post & -> & -> & Hc).
    split; [|done]. split.
    + rewrite fmap_app, fmap_cons in *. by rewrite Hp.
    + rewrite Forall_app, Forall_cons in *. destruct Hall as (? & ? & ?).
      split_and!; auto.
  - apply update_child_None in E. split; [|done]. split.
    + rewrite fmap_app. apply NoDup_app. split_and!; [done| |].
      * intros y Hy Hy'. simpl in Hy'. apply list_elem_of_singleton in Hy' as ->.
        by rewrite Hp in Hy.
      * simpl. apply NoDup_singleton.
    + rewrite Forall_app, Forall_singleton. split; [done|].
      apply Hd. apply distinct_paths_eq. simpl. split; [constructor|constructor].
Qed.

Lemma set_url_distinct url n :
  (distinct_paths n → distinct_paths (set_url url n))
  ∧ node_path (set_url url n) = node_path n.
Proof. by destruct n. Qed.

Lemma webmap_descend_distinct by_path acc segs url n :
  (distinct_paths n → distinct_paths (Webmap_playwright.descend by_path acc segs url n))
  ∧ node_path (Webmap_playwright.descend by_path acc segs url n) = node_path n.
Proof.
  revert acc n. induction segs as [|seg rest IH]; intros acc n.
  - apply set_url_distinct.
  - cbn [Webmap_playwright.descend].
    split.
    + intros Hn. apply find_or_create_then_distinct; [| |done].
      * intros c. apply IH.
      * intros c. apply IH.
    + destruct n as [x u cs p]. simpl. by destruct (update_child _ _ cs).
Qed.

Lemma final_descend_distinct acc segs url n :
  (distinct_paths n → distinct_paths (Final_webmap.descend acc segs url n))
  ∧ node_path (Final_webmap.descend acc segs url n) = node_path n.
Proof.
  revert acc n. induction segs as [|seg rest IH]; intros acc n.
  - apply set_url_distinct.
  - cbn [Final_webmap.descend].
    split.
    + intros Hn. apply find_or_create_then_distinct; [| |done].
      * intros c. apply IH.
      * intros c. apply IH.
    + destruct n as [x u cs p]. simpl. by destruct (update_child _ _ cs).
Qed.

Lemma foldl_distinct (add : node → string → node) urls root :
  (∀ n u, distinct_paths n → distinct_paths (add n u)) →
  distinct_paths root → distinct_paths (foldl add root urls).
Proof.
  intros Hadd. revert root. induction urls as [|u urls IH]; intros root Hr; [done|].
  simpl. apply IH. by apply Hadd.
Qed.

Lemma webmap_build_distinct start_url keys :
  distinct_paths (Webmap_playwright.build_nodes start_url keys).
Proof.
  unfold Webmap_playwright.build_nodes. apply foldl_distinct.
  - intros n u Hn. unfold Webmap_playwright.add_url.
    destruct (Py.is_empty _); [done|]. by apply webmap_descend_distinct.
  - simpl. split; [constructor|done].
Qed.

Lemma final_build_distinct first_url urls :
  distinct_paths (foldl Final_webmap.add_url (Final_webmap.root_of first_url) urls).
Proof.
  apply foldl_distinct.
  - intros n u Hn. unfold Final_webmap.add_url.
    destruct (_ || _); [done|]. by apply final_descend_distinct.
  - simpl. split; [constructor|done].
Qed.


End TreeFacts.





(** * More on the crawl loop: what [crawl] returns *)

Section CrawlResult.
Import Aux More.
Context (W : World) (max_pages : Z).
Context (visit : string → tab W → visit_result * tab W * list event).
Context (page_value : gset string → list string).
Hypothesis page_value_elems : ∀ X u, u ∈ page_value X ↔ u ∈ X.

Local Abbreviation step := (crawl_step W max_pages visit page_value).
Local Abbreviation reach := (crawl_reach W max_pages visit page_value).
Local Abbreviation run := (crawl_run W max_pages visit page_value).

Lemma linked_mono start pages pages' u :
  (∀ e, e ∈ pages → e ∈ pages') → linked start pages u → linked start pages' u.
Proof.
  intros Hsub [->|(k & l & Hin & Hu)]; [by left|right].
  exists k, l. split; [by apply Hsub|done].
Qed.

Lemma rooted_snoc start pages k v :
  rooted start pages → linked start pages k → rooted start (pages ++ [(k, v)]).
Proof.
  intros Hr Hk p1 k0 v0 p2 Heq.
  destruct p2 as [|y p2 _] using rev_ind.
  - apply app_inj_tail in Heq as [<- [= <- <-]]. exact Hk.
  - rewrite app_comm_cons, app_assoc in Heq.
    apply app_inj_tail in Heq as [-> _]. by eapply Hr.
Qed.

(** Every recorded page and every queued URL is the start URL or a link of
    a page recorded before. *)
Lemma reach_rooted start t st :
  reach start t st →
  rooted start (pages st) ∧ ∀ u, u ∈ queue st → linked start (pages st) u.
Proof.
  induction 1 as [|st st' Hr [IHr IHq] Hs].
  - split.
    + intros p1 k v p2 Heq. simpl in Heq. by destruct p1.
    + intros u Hu. simpl in Hu. apply list_elem_of_singleton in Hu as ->. by left.
  - pose proof (inv_reach _ _ _ _ _ _ _ Hr) as Hinv.
    pose proof Hs as Hs'.
    apply step_inv in Hs as (url & rest & Hq & Hlt & Hs).
    assert (linked start (pages st) url) as Hurl.
    { apply IHq. rewrite Hq. by left. }
    assert (∀ u, u ∈ rest → linked start (pages st) u) as Hrest.
    { intros u Hu. apply IHq. rewrite Hq. by right. }
    destruct Hs as [[Hv ->]|[(Hv & t' & tr & _ & ->)|(Hv & links & t' & tr & Ev & ->)]];
      simpl; [done|done|].
    destruct Hinv as (Hsub & _).
    assert (url ∉ (pages st).*1) as Hfresh by (intros Hk; by apply Hv, Hsub).
    rewrite (dict_set_fresh _ _ _ Hfresh).
    split; [by apply rooted_snoc|].
    destruct (enqueue_links_spec max_pages ({[url]} ∪ visited st)
                (length (pages st ++ [(url, page_value links)]))
                (set_order W links) rest) as (added & -> & Hin & _).
    intros u [Hu|Hu]%elem_of_app.
    + eapply linked_mono; [|by apply Hrest]. intros e He. apply elem_of_app. by left.
    + right. exists url, (page_value links). split.
      * apply elem_of_app. right. by apply list_elem_of_singleton.
      * apply page_value_elems. destruct (Hin u Hu) as [Hl _].
        rewrite (iter_perm (set_order W) links) in Hl. by apply elem_of_elements in Hl.
Qed.

(** Every recorded value is what [visit] returned for its key. *)
Lemma reach_values start t st k l :
  reach start t st → (k, l) ∈ pages st →
  ∃ X t1 t2 tr, visit k t1 = (Recorded X, t2, tr) ∧ l = page_value X.
Proof.
  induction 1 as [|st st' Hr IH Hs]; intros Hin.
  - by apply elem_of_nil in Hin.
  - pose proof (inv_reach _ _ _ _ _ _ _ Hr) as Hinv.
    destruct (step_records _ _ _ _ _ _ Hinv Hs)
      as [[Hp _]|(url & rest & links & t' & tr & _ & _ & _ & Ev & Hp & _)].
    + rewrite Hp in Hin. by apply IH.
    + rewrite Hp in Hin. apply elem_of_app in Hin as [Hin|Hin]; [by apply IH|].
      apply list_elem_of_singleton in Hin as [= -> ->]. by exists links, (cr_tab st), t', tr.
Qed.

Lemma step_pages_grow st st' :
  crawl_inv max_pages st → step st = Some st' →
  (length (pages st) ≤ length (pages st'))%nat
  ∧ head (pages st').*1 = match pages st with
                          | [] => head (pages st').*1
                          | (k, _) :: _ => Some k
                          end.
Proof.
  intros Hinv Hs.
  destruct (step_records _ _ _ _ _ _ Hinv Hs)
    as [[Hp _]|(url & rest & links & t' & tr & _ & _ & _ & _ & Hp & _)]; rewrite Hp.
  - split; [done|]. by destruct (pages st) as [|[k v] ps].
  - rewrite length_app. split; [lia|]. by destruct (pages st) as [|[k v] ps].
Qed.

Lemma loop_pages_grow fuel st :
  crawl_inv max_pages st →
  (length (pages st) ≤ length (pages (crawl_loop W max_pages visit page_value fuel st)))%nat
  ∧ (pages st ≠ [] →
     head (pages (crawl_loop W max_pages visit page_value fuel st)).*1
     = head (pages st).*1).
Proof.
  revert st. induction fuel as [|fuel IH]; intros st Hinv; [done|].
  cbn [crawl_loop]. destruct (step st) as [st'|] eqn:E; [|done].
  pose proof (inv_step _ _ _ _ _ _ Hinv E) as Hinv'.
  destruct (step_pages_grow st st' Hinv E) as [Hlen Hhead].
  destruct (IH st' Hinv') as [IH1 IH2]. split; [lia|].
  intros Hne. rewrite IH2.
  - destruct (pages st) as [|[k v] ps]; [done|]. by rewrite Hhead.
  - intros Hnil. rewrite Hnil in Hlen. destruct (pages st); [done|]. simpl in Hlen. lia.
Qed.

Lemma loop_stuck fuel st :
  step st = None → crawl_loop W max_pages visit page_value fuel st = st.
Proof. intros H. destruct fuel; [done|]. cbn [crawl_loop]. by rewrite H. Qed.

Lemma loop_unroll fuel st st' :
  step st = Some st' →
  crawl_loop W max_pages visit page_value (S fuel) st
  = crawl_loop W max_pages visit page_value fuel st'.
Proof. intros H. change (crawl_loop W max_pages visit page_value (S fuel) st)
  with (match step st with
        | None => st
        | Some s => crawl_loop W max_pages visit page_value fuel s
        end). by rewrite H. Qed.

(** The first key of what [crawl] returns. *)
Lemma run_first_key start t :
  head (pages (run start t)).*1
  = if (0 <? max_pages)%Z
    then match (visit start t).1.1 with
         | Recorded _ => Some start
         | Abandoned => None
         end
    else None.
Proof.
  unfold crawl_run, crawl_fuel.
  destruct (step (crawl_init W start t)) as [st1|] eqn:Es.
  - rewrite (loop_unroll _ _ _ Es).
    pose proof (inv_step _ _ _ _ _ _ (inv_init W max_pages start t) Es) as Hinv1.
    apply step_inv in Es as (url & rest & Hq & Hlt & Hs).
    simpl in Hq, Hlt. injection Hq as <- <-.
    assert ((0 <? max_pages)%Z = true) as -> by (apply Z.ltb_lt; lia).
    destruct Hs as [[Hv _]|[(_ & t' & tr & Ev & Hst)|(_ & links & t' & tr & Ev & Hst)]].
    + simpl in Hv. by apply not_elem_of_empty in Hv.
    + simpl in Ev. rewrite Ev. cbn [fst].
      rewrite loop_stuck; [by rewrite Hst|].
      apply step_None. left. by rewrite Hst.
    + simpl in Ev. rewrite Ev. cbn [fst].
      destruct (loop_pages_grow (S ((2 * Z.to_nat max_pages + 1) * Z.to_nat max_pages))
                  st1 Hinv1) as [_ H].
      rewrite H; by rewrite Hst.
  - rewrite (loop_stuck _ _ Es).
    apply step_None in Es as [Hq|Hm]; [done|].
    simpl in Hm. by assert ((0 <? max_pages)%Z = false) as -> by (apply Z.ltb_ge; lia).
Qed.

Lemma run_budget start t :
  (Z.of_nat (length (pages (run start t))) ≤ Z.max 0 max_pages)%Z.
Proof.
  pose proof (inv_reach _ _ _ _ _ _ _ (run_reach W max_pages visit page_value start t))
    as (_ & _ & H & _).
  exact H.
Qed.

End CrawlResult.

(** * More on the links of a page *)

Section LinkForm.
Import Aux.
Context (W : World).

Lemma candidate_found_form normalize same_site (el : handle W) st u :
  u ∈ cs_found (click_candidate W normalize same_site el st).2 →
  u ∈ cs_found st ∨ ∃ x, u = normalize x.
Proof.
  click_cases W el st; simpl; try (by left);
    (destruct (same_site _ && negb _); [|by left]);
    (intros [->%elem_of_singleton|H]%elem_of_union; [right; by eexists|by left]).
Qed.

Lemma loop_found_form normalize same_site max (handles : list (handle W)) st u :
  u ∈ cs_found (click_loop W normalize same_site max handles st) →
  u ∈ cs_found st ∨ ∃ x, u = normalize x.
Proof.
  revert st. induction handles as [|el rest IH]; intros st; [by left|].
  cbn [click_loop]. destruct (max <=? cs_clicks st)%nat; [by left|].
  pose proof (candidate_found_form normalize same_site el st u) as Hc.
  destruct (click_candidate W normalize same_site el st) as [[|] st']; cbn [snd] in Hc.
  - intros [H|H]%IH; [by apply Hc|by right].
  - exact Hc.
Qed.

Lemma discover_found_form normalize same_site t max u :
  u ∈ cs_found (discover W normalize same_site t max) → ∃ x, u = normalize x.
Proof.
  unfold discover. destruct (tab_candidates W t) as [handles|].
  - intros [H|H]%loop_found_form; [by apply not_elem_of_empty in H|done].
  - intros H. by apply not_elem_of_empty in H.
Qed.

Lemma keep_links_form domain l u :
  u ∈ Webmap_playwright.keep_links domain l → ∃ a, u = Webmap_playwright.normalize a.
Proof.
  unfold Webmap_playwright.keep_links.
  rewrite elem_of_list_to_set, list_elem_of_fmap. intros (a & -> & _). by exists a.
Qed.

(** Every link of a page is a normal form. *)
Lemma webmap_visit_form domain max_clicks url t links t' tr u :
  Webmap_playwright.visit W domain max_clicks url t = (Recorded links, t', tr) →
  u ∈ links → ∃ a, u = Webmap_playwright.normalize a.
Proof.
  unfold Webmap_playwright.visit.
  assert (∀ v, v ∈ Webmap_playwright.rendered_links W
                     (Webmap_playwright.render_page W domain max_clicks url t) →
               ∃ a, v = Webmap_playwright.normalize a) as Hr.
  { unfold Webmap_playwright.render_page.
    destruct (tab_goto W url t) as [g t1]. destruct (goto_ok g); simpl.
    - intros v. rewrite !elem_of_union.
      intros [[Hv|[[Hv|Hv]|Hv]]|Hv].
      + by apply not_elem_of_empty in Hv.
      + unfold Webmap_playwright.extract_links_from_dom in Hv.
        destruct (tab_content W _); [by eapply keep_links_form|].
        by apply not_elem_of_empty in Hv.
      + by eapply keep_links_form.
      + by eapply keep_links_form.
      + by eapply discover_found_form.
    - intros v Hv. by apply not_elem_of_empty in Hv. }
  unfold Webmap_playwright.fallback.
  destruct (bool_decide _ && negb _).
  - destruct (fetch_html W url) as [html|].
    + destruct (Py.is_empty html); intros [= <- _ _] Hu; [by apply Hr|].
      by eapply keep_links_form.
    + intros [= <- _ _] Hu. by apply Hr.
  - intros [= <- _ _] Hu. by apply Hr.
Qed.

Lemma final_visit_form base_root url t links t' tr u :
  Final_webmap.visit W base_root url t = (Recorded links, t', tr) →
  u ∈ links → ∃ a, u = Final_webmap.normalize a.
Proof.
  unfold Final_webmap.visit. destruct (tab_goto W url t) as [g t1].
  assert (u ∈ Final_webmap.extract_links_from_dom W
                (tab_expand_menus W (tab_scroll W t1)) base_root
              ∪ cs_found (Final_webmap.click_discover W
                            (tab_expand_menus W (tab_scroll W t1)) base_root 5) →
          ∃ a, u = Final_webmap.normalize a) as H.
  { intros [Hu|Hu]%elem_of_union.
    - unfold Final_webmap.extract_links_from_dom in Hu.
      destruct (tab_content W _); [|by apply not_elem_of_empty in Hu].
      apply elem_of_list_to_set, list_elem_of_fmap in Hu as (a & -> & _).
      by exists a.
    - by eapply discover_found_form. }
  destruct g; [|intros [= <- _ _]; exact H|done].
  intros [= <- _ _]. exact H.
Qed.

End LinkForm.

Section NormalFormFacts.
Import Py Aux.

(** A normal form of 3webmap_playwright.py is left alone by [normalize], has
    no fragment or query mark, and does not end in a separator. *)
Lemma webmap_normal_form a :
  Webmap_playwright.normalize (Webmap_playwright.normalize a)
    = Webmap_playwright.normalize a
  ∧ has_char "#" (Webmap_playwright.normalize a) = false
  ∧ has_char "?" (Webmap_playwright.normalize a) = false
  ∧ ends_with_char "/" (Webmap_playwright.normalize a) = false.
Proof.
  rewrite !webmap_normalize_cut.
  assert (has_char "#" (rstrip "/" (cut a)) = false) as Hh
    by apply rstrip_keeps, cut_no_hash.
  assert (has_char "?" (rstrip "/" (cut a)) = false) as Hq
    by apply rstrip_keeps, cut_no_query.
  split_and!; [|done|done|apply rstrip_not_ends].
  rewrite (cut_id _ Hh Hq). apply rstrip_idem.
Qed.

(** A normal form of final_webmap.py is left alone by [normalize] and has
    no fragment or query mark. *)
Lemma final_normal_form a :
  Final_webmap.normalize (Final_webmap.normalize a) = Final_webmap.normalize a
  ∧ has_char "#" (Final_webmap.normalize a) = false
  ∧ has_char "?" (Final_webmap.normalize a) = false.
Proof.
  pose proof (final_normalize_clean "#" a (cut_no_hash a)) as Hh.
  pose proof (final_normalize_clean "?" a (cut_no_query a)) as Hq.
  split_and!; [|done|done].
  rewrite (final_normalize_cut (Final_webmap.normalize a)).
  rewrite (cut_id _ Hh Hq).
  rewrite (final_normalize_cut a).
  destruct (split_once "://" (cut a)) as [[sch rest]|] eqn:E.
  - rewrite (split_once_retail "://" (cut a) sch rest (slash_rule rest)); [|done|done].
    by rewrite slash_rule_idem.
  - assert (split_once "://" (slash_rule (cut a)) = None) as ->.
    { destruct (slash_rule_take (cut a)) as [k ->]. by apply split_once_None_keep. }
    apply slash_rule_idem.
Qed.

End NormalFormFacts.

(** * What [crawl] returns *)

Section CrawlOutput.
Import Aux More.
Context (W : World) (start_url : string) (max_pages : Z) (max_clicks : nat).
Context (t0 : tab W).

Lemma set_order_elems (X : gset string) u : u ∈ set_order W X ↔ u ∈ X.
Proof. by rewrite (iter_perm (set_order W) X), elem_of_elements. Qed.

Lemma sorted_elems (X : gset string) u :
  u ∈ Final_webmap.sorted (set_order W) X ↔ u ∈ X.
Proof.
  unfold Final_webmap.sorted. rewrite merge_sort_Permutation. apply set_order_elems.
Qed.

(** X1: the adjacency map that [crawl] returns is rooted at the start URL:
    every key other than the start URL is among the links recorded under a
    key that comes before it, in both scripts. *)
Theorem crawl_rooted :
  rooted start_url (Webmap_playwright.crawl W start_url max_pages max_clicks t0)
  ∧ rooted start_url (Final_webmap.crawl W start_url max_pages t0).
Proof.
  split.
  - eapply (reach_rooted W max_pages _ (set_order W) set_order_elems start_url t0).
    apply run_reach.
  - eapply (reach_rooted W max_pages _ (Final_webmap.sorted (set_order W))
              sorted_elems start_url t0).
    apply run_reach.
Qed.

(** X2: when [crawl] returns any page, the first key is the start URL.  In
    3webmap_playwright.py the result is empty only for a budget below one
    page; in final_webmap.py also when the navigation to the start URL
    raises an error that is not a timeout. *)
Theorem crawl_first_key :
  head (Webmap_playwright.crawl W start_url max_pages max_clicks t0).*1
    = (if (0 <? max_pages)%Z then Some start_url else None)
  ∧ head (Final_webmap.crawl W start_url max_pages t0).*1
    = (if (0 <? max_pages)%Z
       then match (tab_goto W start_url t0).1 with
            | GotoError => None
            | _ => Some start_url
            end
       else None).
Proof.
  split.
  - unfold Webmap_playwright.crawl, Webmap_playwright.crawl_state_of.
    rewrite run_first_key. destruct (0 <? max_pages)%Z; [|done].
    pose proof (webmap_visit_recorded W (Url.netloc (Url.urlparse start_url))
                  max_clicks start_url t0) as Hne.
    by destruct (Webmap_playwright.visit W _ max_clicks start_url t0).1.1.
  - unfold Final_webmap.crawl, Final_webmap.crawl_state_of.
    rewrite run_first_key. destruct (0 <? max_pages)%Z; [|done].
    unfold Final_webmap.visit. by destruct (tab_goto W start_url t0) as [[| |] t1].
Qed.

(** X3: [crawl] never returns more than [max_pages] pages, and none for a
    budget that is zero or negative, in both scripts. *)
Theorem crawl_within_budget :
  (Z.of_nat (length (Webmap_playwright.crawl W start_url max_pages max_clicks t0))
     ≤ Z.max 0 max_pages)%Z
  ∧ (Z.of_nat (length (Final_webmap.crawl W start_url max_pages t0))
       ≤ Z.max 0 max_pages)%Z.
Proof. split; apply run_budget. Qed.



End CrawlOutput.



(** * More on the same-site test of final_webmap.py *)

Section SameSiteMore.
Import Py.

Lemma lower_char_idem a : lower_char (lower_char a) = lower_char a.
Proof. destruct a as [[] [] [] [] [] [] [] []]; reflexivity. Qed.

Lemma lower_idem s : lower (lower s) = lower s.
Proof. induction s as [|a s IH]; simpl; [done|]. by rewrite lower_char_idem, IH. Qed.

Lemma lower_app s t : lower (s +:+ t) = lower s +:+ lower t.
Proof.
  induction s as [|a s IH]; [done|].
  rewrite app_cons. simpl. by rewrite IH, app_cons.
Qed.

Lemma lower_drop k s : lower (Py.drop k s) = Py.drop k (lower s).
Proof. revert s. induction k as [|k IH]; intros [|a s]; simpl; auto. Qed.

Lemma strip_www_lower s :
  lower (Final_webmap.strip_www (lower s)) = Final_webmap.strip_www (lower s).
Proof.
  unfold Final_webmap.strip_www.
  destruct (startswith "www." (lower s)); [|apply lower_idem].
  by rewrite lower_drop, lower_idem.
Qed.

Lemma root_domain_lower u :
  lower (Final_webmap.root_domain u) = Final_webmap.root_domain u.
Proof. apply strip_www_lower. Qed.

Lemma endswith_refl s : endswith s s = true.
Proof. apply endswith_spec. by exists "". Qed.

(** Taking a leading [www.] off a host that is some label, a dot and a
    domain leaves a string that still ends in the domain. *)
Lemma strip_www_keeps_suffix s rd :
  ∃ p, Final_webmap.strip_www (s +:+ "." +:+ rd) = p +:+ rd.
Proof.
  unfold Final_webmap.strip_www.
  destruct (startswith "www." (s +:+ "." +:+ rd)) eqn:E.
  - destruct s as [|a [|b [|c [|d s]]]].
    + rewrite app_empty_l in E. simpl in E. discriminate E.
    + rewrite !app_cons, app_empty_l in E. simpl in E.
      rewrite andb_false_r in E. discriminate E.
    + rewrite !app_cons, app_empty_l in E. simpl in E.
      rewrite !andb_false_r in E. discriminate E.
    + exists "". rewrite !app_cons, !app_empty_l. reflexivity.
    + exists (s +:+ "."). rewrite !app_cons. simpl. by rewrite app_assoc'.
  - exists (s +:+ "."). by rewrite app_assoc'.
Qed.

End SameSiteMore.

(** X6: the same-site test of final_webmap.py accepts the start URL itself,
    the [www.] form of its root domain and every subdomain of it; it does
    not look at the case of the host; and when the start URL has no host,
    every host is accepted. *)
Theorem same_site_own_site (u sub h : string) :
  Final_webmap.same_site (Final_webmap.root_domain u) u = true
  ∧ Final_webmap.host_accepted (Final_webmap.root_domain u)
      (sub +:+ "." +:+ Final_webmap.root_domain u) = true
  ∧ Final_webmap.host_accepted (Final_webmap.root_domain u)
      ("www." +:+ Final_webmap.root_domain u) = true
  ∧ Final_webmap.host_accepted (Final_webmap.root_domain u) (Py.lower h)
    = Final_webmap.host_accepted (Final_webmap.root_domain u) h
  ∧ Final_webmap.host_accepted "" h = true.
Proof.
  split_and!.
  - unfold Final_webmap.same_site, Final_webmap.host_accepted, Final_webmap.root_domain.
    apply endswith_refl.
  - unfold Final_webmap.host_accepted. apply endswith_spec.
    rewrite !lower_app, root_domain_lower.
    change (Py.lower ".") with ".". apply strip_www_keeps_suffix.
  - unfold Final_webmap.host_accepted. apply endswith_spec.
    rewrite lower_app, root_domain_lower.
    change (Py.lower "www.") with ("www" +:+ "."). rewrite app_assoc'.
    apply strip_www_keeps_suffix.
  - unfold Final_webmap.host_accepted. by rewrite lower_idem.
  - unfold Final_webmap.host_accepted. apply endswith_spec.
    exists (Final_webmap.strip_www (Py.lower h)). by rewrite app_empty_r.
Qed.

(** * More on click discovery *)

Section ClickMore.
Import Aux.
Context (W : World) (normalize : string → string) (same_site : string → bool).

Lemma loop_quiet max (handles : list (handle W)) t :
  max = 0%nat ∨ (∀ el, el ∈ handles → el_has_box W el t = false) →
  click_loop W normalize same_site max handles (click_start W t) = click_start W t.
Proof.
  intros H. induction handles as [|el rest IH]; [done|].
  cbn [click_loop]. destruct H as [->|H]; [done|].
  destruct (max <=? _)%nat; [done|].
  unfold click_candidate. cbn [cs_tab click_start].
  rewrite (H el) by (by left). cbn [negb].
  apply IH. right. intros el' Hel. apply H. by right.
Qed.


End ClickMore.

(** X7: click discovery does nothing at all, no click, no navigation and
    nothing discovered, when the budget is zero, when the query for the
    candidates raises, or when no candidate has a box. *)
Theorem click_discovery_quiet (W : World) (normalize : string → string)
    (same_site : string → bool) (t : tab W) (max_clicks : nat)
    (H : max_clicks = 0%nat
         ∨ match tab_candidates W t with
           | None => True
           | Some handles => ∀ el, el ∈ handles → el_has_box W el t = false
           end) :
  discover W normalize same_site t max_clicks = click_start W t
  ∧ Webmap_playwright.click_discover_links W t "" "" 0 = click_start W t
  ∧ Final_webmap.click_discover W t "" 0 = click_start W t.
Proof.
  split_and!.
  - unfold discover. destruct (tab_candidates W t) as [handles|]; [|done].
    apply loop_quiet. destruct H as [?|?]; [by left|by right].
  - unfold Webmap_playwright.click_discover_links, discover.
    destruct (tab_candidates W t); [|done]. apply loop_quiet. by left.
  - unfold Final_webmap.click_discover, discover.
    destruct (tab_candidates W t); [|done]. apply loop_quiet. by left.
Qed.

(** X7 on the page with three clickable elements, with a budget of zero. *)
Lemma click_discovery_quiet_witness :
  discover (Sim.world Sim.menu_site) Webmap_playwright.normalize
    (Webmap_playwright.same_netloc "a.com") (Sim.on "https://a.com") 0
  = click_start (Sim.world Sim.menu_site) (Sim.on "https://a.com").
Proof.
  exact (proj1 (click_discovery_quiet (Sim.world Sim.menu_site)
                  Webmap_playwright.normalize (Webmap_playwright.same_netloc "a.com")
                  (Sim.on "https://a.com") 0 (or_introl eq_refl))).
Defined.



(** * More on the tree builders *)

Section TreeMore.
Import Py Aux More.

(** Induction on a node, with the property known of its children. *)
Lemma node_nested_ind (P : node → Prop) :
  (∀ x u cs p, Forall P cs → P (Node x u cs p)) → ∀ n, P n.
Proof.
  intros H. fix IH 1. intros [x u cs p]. apply H.
  induction cs as [|c cs IHcs]; constructor; [apply IH|exact IHcs].
Qed.

Lemma distinct_names_eq t :
  distinct_names t
  ↔ NoDup (tree_name <$> tree_children t) ∧ Forall distinct_names (tree_children t).
Proof.
  destruct t as [x u cs]. cbn [distinct_names tree_children].
  assert ((fix all (l : list tree) : Prop :=
             match l with
             | [] => True
             | c :: l' => distinct_names c ∧ all l'
             end) cs ↔ Forall distinct_names cs) as ->; [|done].
  induction cs as [|c cs IH]; [by split|].
  rewrite Forall_cons. by rewrite IH.
Qed.

Lemma shaped_eq acc n :
  shaped acc n
  ↔ node_path n = join "/" acc
    ∧ Forall (λ c, shaped (acc ++ [node_name c]) c) (node_children n).
Proof.
  destruct n as [x u cs p]. cbn [shaped node_children node_path].
  assert ((fix all (l : list node) : Prop :=
             match l with
             | [] => True
             | c :: l' => shaped (acc ++ [node_name c]) c ∧ all l'
             end) cs ↔ Forall (λ c, shaped (acc ++ [node_name c]) c) cs) as ->; [|done].
  induction cs as [|c cs IH]; [by split|].
  rewrite Forall_cons. by rewrite IH.
Qed.

Lemma named_by_path_eq n :
  named_by_path n
  ↔ Forall (λ c, node_name c = node_path c ∧ named_by_path c) (node_children n).
Proof.
  destruct n as [x u cs p]. cbn [named_by_path node_children].
  induction cs as [|c cs IH]; [by split|].
  rewrite Forall_cons. by rewrite IH.
Qed.

Lemma map_is_fmap {A B} (f : A → B) (l : list A) : map f l = f <$> l.
Proof. induction l as [|a l IH]; [done|]. simpl. by rewrite IH. Qed.

Lemma clean_children n :
  tree_children (clean n) = clean <$> node_children n
  ∧ tree_name (clean n) = node_name n ∧ tree_url (clean n) = node_url n.
Proof. destruct n as [x u cs p]. simpl. by rewrite map_is_fmap. Qed.

Lemma app_inv_head' s t1 t2 : s +:+ t1 = s +:+ t2 → t1 = t2.
Proof.
  induction s as [|a s IH]; [done|]. rewrite !app_cons. intros [= H]. by apply IH.
Qed.

Lemma join_snoc acc x :
  join "/" (acc ++ [x])
  = match acc with [] => x | _ => join "/" acc +:+ "/" +:+ x end.
Proof.
  induction acc as [|a acc IH]; [done|].
  change ((a :: acc) ++ [x]) with (a :: (acc ++ [x])).
  destruct acc as [|b acc]; [done|].
  change (join "/" (a :: ((b :: acc) ++ [x])))
    with (a +:+ "/" +:+ join "/" ((b :: acc) ++ [x])).
  rewrite IH.
  change (join "/" (a :: b :: acc)) with (a +:+ "/" +:+ join "/" (b :: acc)).
  by rewrite !app_assoc'.
Qed.

Lemma join_snoc_inj acc x y :
  join "/" (acc ++ [x]) = join "/" (acc ++ [y]) → x = y.
Proof.
  rewrite !join_snoc. destruct acc as [|a acc]; [done|].
  rewrite <- !app_assoc'. apply app_inv_head'.
Qed.

(** [build_tree] keeps its nodes in shape. *)
Lemma webmap_descend_shaped by_path acc segs url n :
  shaped acc n →
  shaped acc (Webmap_playwright.descend by_path acc segs url n)
  ∧ node_name (Webmap_playwright.descend by_path acc segs url n) = node_name n.
Proof.
  revert acc n. induction segs as [|seg rest IH]; intros acc n Hn.
  - destruct n as [x u cs p]. by split.
  - cbn [Webmap_playwright.descend].
    apply shaped_eq in Hn as [Hp Hcs].
    destruct n as [x u cs p]. cbn [node_path node_children] in *.
    unfold find_or_create_then.
    destruct (update_child _ _ cs) as [cs'|] eqn:E.
    + apply update_child_Some in E as (pre & c & post & -> & -> & Hc).
      split; [|done]. apply shaped_eq. split; [done|]. cbn [node_children].
      rewrite Forall_app, Forall_cons in *. destruct Hcs as (Hpre & Hsc & Hpost).
      split; [done|]. split; [|done].
      pose proof Hsc as Hsc'. apply shaped_eq in Hsc' as [Hpc _].
      rewrite Hc in Hpc. apply join_snoc_inj in Hpc. rewrite <- Hpc in Hsc.
      destruct (IH (acc ++ [seg]) c Hsc) as [H1 H2].
      rewrite H2, <- Hpc. exact H1.
    + split; [|done]. apply shaped_eq. split; [done|]. cbn [node_children].
      rewrite Forall_app, Forall_singleton. split; [done|].
      destruct (IH (acc ++ [seg]) (Node seg (by_path !! join "/" (acc ++ [seg])) []
                                     (join "/" (acc ++ [seg])))) as [H1 H2].
      { apply shaped_eq. by split. }
      rewrite H2. exact H1.
Qed.

Lemma webmap_build_shaped start_url keys :
  shaped [] (Webmap_playwright.build_nodes start_url keys).
Proof.
  unfold Webmap_playwright.build_nodes.
  generalize (Webmap_playwright.url_by_path keys). intros by_path.
  assert (shaped [] (Node (Url.netloc (Url.urlparse start_url)) (Some start_url) [] ""))
    as Hroot by (apply shaped_eq; by split).
  revert Hroot. generalize (Node (Url.netloc (Url.urlparse start_url)) (Some start_url) [] "").
  induction keys as [|k keys IH]; intros root Hroot; [done|].
  simpl. apply IH. unfold Webmap_playwright.add_url.
  destruct (is_empty _); [done|]. by apply webmap_descend_shaped.
Qed.

(** [build_tree_from_pages] names every node below the root by its path. *)
Lemma final_descend_named acc segs url n :
  named_by_path n →
  named_by_path (Final_webmap.descend acc segs url n)
  ∧ node_name (Final_webmap.descend acc segs url n) = node_name n.
Proof.
  revert acc n. induction segs as [|seg rest IH]; intros acc n Hn.
  - destruct n as [x u cs p]. by split.
  - cbn [Final_webmap.descend].
    apply named_by_path_eq in Hn.
    destruct n as [x u cs p]. cbn [node_children] in *.
    unfold find_or_create_then.
    destruct (update_child _ _ cs) as [cs'|] eqn:E.
    + apply update_child_Some in E as (pre & c & post & -> & -> & Hc).
      split; [|done]. apply named_by_path_eq. cbn [node_children].
      rewrite Forall_app, Forall_cons in *. destruct Hn as (Hpre & [Hnc Hsc] & Hpost).
      split; [done|]. split; [|done].
      destruct (IH (if is_empty acc then "/" +:+ seg else acc +:+ "/" +:+ seg) c Hsc)
        as [H1 H2].
      split; [|done]. rewrite H2, Hnc. symmetry. apply final_descend_distinct.
    + split; [|done]. apply named_by_path_eq. cbn [node_children].
      rewrite Forall_app, Forall_singleton. split; [done|].
      set (a := if is_empty acc then "/" +:+ seg else acc +:+ "/" +:+ seg).
      destruct (IH a (Node a None [] a)) as [H1 H2]; [by apply named_by_path_eq|].
      split; [|done]. rewrite H2. simpl. symmetry.
      by rewrite (proj2 (final_descend_distinct a rest url (Node a None [] a))).
Qed.

Lemma final_build_named first_url urls :
  named_by_path (foldl Final_webmap.add_url (Final_webmap.root_of first_url) urls).
Proof.
  assert (named_by_path (Final_webmap.root_of first_url)) as Hroot
    by (by apply named_by_path_eq).
  revert Hroot. generalize (Final_webmap.root_of first_url).
  induction urls as [|k urls IH]; intros root Hroot; [done|].
  simpl. apply IH. unfold Final_webmap.add_url.
  destruct (_ || _); [done|]. by apply final_descend_named.
Qed.

(** With the nodes in shape and the paths of siblings apart, the names of
    siblings are apart in the tree that is returned. *)
Lemma shaped_distinct_names n :
  ∀ acc, shaped acc n → distinct_paths n → distinct_names (clean n).
Proof.
  induction n as [x u cs p IH] using node_nested_ind. intros acc Hs Hd.
  apply shaped_eq in Hs as [_ Hs]. apply distinct_paths_eq in Hd as [Hnd Hd].
  cbn [node_children] in *.
  apply distinct_names_eq. rewrite (proj1 (clean_children _)). cbn [node_children].
  split.
  - rewrite <- list_fmap_compose.
    apply (NoDup_fmap_1 (λ y, join "/" (acc ++ [y]))).
    rewrite <- list_fmap_compose.
    erewrite list_fmap_ext; [exact Hnd|].
    intros i c Hc. simpl. rewrite (proj1 (proj2 (clean_children c))).
    apply list_elem_of_lookup_2 in Hc. rewrite Forall_forall in Hs.
    specialize (Hs c Hc). apply shaped_eq in Hs as [Hs _]. by rewrite Hs.
  - rewrite Forall_fmap. rewrite Forall_forall in *. intros c Hc. simpl.
    by eapply IH; [|apply Hs|apply Hd].
Qed.

Lemma named_distinct_names n :
  named_by_path n → distinct_paths n → distinct_names (clean n).
Proof.
  induction n as [x u cs p IH] using node_nested_ind. intros Hs Hd.
  apply named_by_path_eq in Hs. apply distinct_paths_eq in Hd as [Hnd Hd].
  cbn [node_children] in *.
  apply distinct_names_eq. rewrite (proj1 (clean_children _)). cbn [node_children].
  split.
  - rewrite <- list_fmap_compose.
    erewrite list_fmap_ext; [exact Hnd|].
    intros i c Hc. simpl. rewrite (proj1 (proj2 (clean_children c))).
    apply list_elem_of_lookup_2 in Hc. rewrite Forall_forall in Hs.
    by destruct (Hs c Hc).
  - rewrite Forall_fmap. rewrite Forall_forall in *. intros c Hc. simpl.
    apply IH; [done|by apply Hs|by apply Hd].
Qed.

End TreeMore.

Section TreeRoot.
Import Py Aux More.

Lemma split_char_nonempty c s : split_char c s ≠ [].
Proof.
  destruct s as [|a s]; [done|]. simpl.
  destruct (Ascii.eqb a c); [done|]. by destruct (split_char c s).
Qed.

(** A URL with a path touches the children of the root of [build_tree]
    only. *)
Lemma webmap_add_url_root by_path root url :
  node_name (Webmap_playwright.add_url by_path root url) = node_name root
  ∧ node_url (Webmap_playwright.add_url by_path root url) = node_url root.
Proof.
  unfold Webmap_playwright.add_url. destruct (is_empty _); [done|].
  pose proof (split_char_nonempty "/" (Webmap_playwright.norm_path url)) as Hne.
  destruct (split_char "/" (Webmap_playwright.norm_path url)) as [|seg rest]; [done|].
  cbn [Webmap_playwright.descend]. destruct root as [x u cs p]. simpl.
  by destruct (update_child _ _ cs).
Qed.

Lemma webmap_build_root start_url keys :
  node_name (Webmap_playwright.build_nodes start_url keys)
    = Url.netloc (Url.urlparse start_url)
  ∧ node_url (Webmap_playwright.build_nodes start_url keys) = Some start_url.
Proof.
  unfold Webmap_playwright.build_nodes.
  generalize (Webmap_playwright.url_by_path keys). intros by_path.
  assert (node_name (Node (Url.netloc (Url.urlparse start_url)) (Some start_url) [] "")
            = Url.netloc (Url.urlparse start_url)
          ∧ node_url (Node (Url.netloc (Url.urlparse start_url)) (Some start_url) [] "")
            = Some start_url) as Hroot by done.
  revert Hroot.
  generalize (Node (Url.netloc (Url.urlparse start_url)) (Some start_url) [] "").
  induction keys as [|k keys IH]; intros root Hroot; [done|].
  simpl. apply IH. destruct (webmap_add_url_root by_path root k) as [-> ->]. exact Hroot.
Qed.

Lemma final_build_root first_url urls :
  node_name (foldl Final_webmap.add_url (Final_webmap.root_of first_url) urls)
  = Url.netloc (Url.urlparse first_url) +:+ "/".
Proof.
  assert (node_name (Final_webmap.root_of first_url)
          = Url.netloc (Url.urlparse first_url) +:+ "/") as Hroot by done.
  revert Hroot. generalize (Final_webmap.root_of first_url).
  induction urls as [|k urls IH]; intros root Hroot; [done|].
  simpl. apply IH. unfold Final_webmap.add_url.
  destruct (_ || _); [done|].
  destruct root as [x u cs p].
  destruct (Final_webmap.segments_of _) as [|seg rest]; [done|].
  cbn [Final_webmap.descend]. simpl in *. by destruct (update_child _ _ cs).
Qed.

End TreeRoot.

(** X9: in the tree that either script returns, no node has two children
    with the same name. *)
Theorem tree_sibling_names (I : SetIter) (start_url : string)
    (pages : list (string * list string)) :
  More.distinct_names (Webmap_playwright.build_tree start_url pages)
  ∧ match Final_webmap.build_tree_from_pages I pages with
    | Some t => More.distinct_names t
    | None => pages = []
    end.
Proof.
  split.
  - unfold Webmap_playwright.build_tree.
    apply (shaped_distinct_names _ []).
    + apply webmap_build_shaped.
    + apply webmap_build_distinct.
  - unfold Final_webmap.build_tree_from_pages.
    destruct pages as [|[first_url v] ps]; [done|].
    apply named_distinct_names.
    + apply final_build_named.
    + apply final_build_distinct.
Qed.

(** X10: the root of the tree of 3webmap_playwright.py is named by the
    host of the start URL and carries the start URL, whatever the pages; the
    root of the tree of final_webmap.py is named by the host of the first key
    of [pages] followed by a separator. *)
Theorem tree_root (I : SetIter) (start_url : string)
    (pages : list (string * list string)) :
  tree_name (Webmap_playwright.build_tree start_url pages)
    = Url.netloc (Url.urlparse start_url)
  ∧ tree_url (Webmap_playwright.build_tree start_url pages) = Some start_url
  ∧ match Final_webmap.build_tree_from_pages I pages, pages with
    | Some t, (first_url, _) :: _ =>
        tree_name t = Url.netloc (Url.urlparse first_url) +:+ "/"
    | None, [] => True
    | _, _ => False
    end.
Proof.
  unfold Webmap_playwright.build_tree.
  destruct (clean_children (Webmap_playwright.build_nodes start_url pages.*1))
    as (_ & -> & ->).
  destruct (webmap_build_root start_url pages.*1) as [-> ->].
  split_and!; [done|done|].
  unfold Final_webmap.build_tree_from_pages.
  destruct pages as [|[first_url v] ps]; [done|].
  rewrite (proj1 (proj2 (clean_children _))). apply final_build_root.
Qed.

(** * Every page with a path has its node *)

Section TreeCover.
Import Py Aux More.

Lemma entries_eq n e :
  e ∈ entries n
  ↔ e = (node_path n, node_url n) ∨ ∃ c, c ∈ node_children n ∧ e ∈ entries c.
Proof.
  destruct n as [x u cs p]. cbn [entries node_children node_path node_url].
  rewrite elem_of_cons.
  assert (e ∈ (fix all (l : list node) : list (string * option string) :=
                 match l with
                 | [] => []
                 | c :: l' => entries c ++ all l'
                 end) cs
          ↔ ∃ c, c ∈ cs ∧ e ∈ entries c) as ->; [|done].
  induction cs as [|c cs IH].
  - split; [intros H; by apply elem_of_nil in H|].
    intros (c & Hc & _). by apply elem_of_nil in Hc.
  - rewrite elem_of_app, IH. split.
    + intros [H|(d & Hd & He)].
      * exists c. split; [apply elem_of_cons; by left|done].
      * exists d. split; [apply elem_of_cons; by right|done].
    + intros (d & Hd & He). apply elem_of_cons in Hd as [->|Hd]; [by left|].
      right. by exists d.
Qed.

Lemma urls_eq t o :
  o ∈ urls t ↔ o = tree_url t ∨ ∃ c, c ∈ tree_children t ∧ o ∈ urls c.
Proof.
  destruct t as [x u cs]. cbn [urls tree_children tree_url].
  rewrite elem_of_cons.
  assert (o ∈ (fix all (l : list tree) : list (option string) :=
                 match l with
                 | [] => []
                 | c :: l' => urls c ++ all l'
                 end) cs
          ↔ ∃ c, c ∈ cs ∧ o ∈ urls c) as ->; [|done].
  induction cs as [|c cs IH].
  - split; [intros H; by apply elem_of_nil in H|].
    intros (c & Hc & _). by apply elem_of_nil in Hc.
  - rewrite elem_of_app, IH. split.
    + intros [H|(d & Hd & He)].
      * exists c. split; [apply elem_of_cons; by left|done].
      * exists d. split; [apply elem_of_cons; by right|done].
    + intros (d & Hd & He). apply elem_of_cons in Hd as [->|Hd]; [by left|].
      right. by exists d.
Qed.

(** What [clean] leaves: the [url] of every node. *)
Lemma entries_urls n : ∀ e, e ∈ entries n → e.2 ∈ urls (clean n).
Proof.
  induction n as [x u cs p IH] using node_nested_ind. intros e He.
  apply entries_eq in He as [->|(c & Hc & He)]; apply urls_eq.
  - left. by rewrite (proj2 (proj2 (clean_children _))).
  - right. exists (clean c). rewrite (proj1 (clean_children _)).
    cbn [node_children] in *. split; [by apply list_elem_of_fmap_2|].
    rewrite Forall_forall in IH. by apply IH.
Qed.

(** [split] then [join] gives the path back. *)
Lemma join_split s : join "/" (split_char "/" s) = s.
Proof.
  induction s as [|a s IH]; [done|]. cbn [split_char].
  pose proof (split_char_nonempty "/" s) as Hne.
  destruct (Ascii.eqb_spec a "/") as [->|Hne'].
  - destruct (split_char "/" s) as [|q qs]; [done|].
    change (join "/" ("" :: q :: qs)) with ("" +:+ "/" +:+ join "/" (q :: qs)).
    by rewrite IH.
  - destruct (split_char "/" s) as [|q qs]; [done|].
    destruct qs as [|q' qs].
    + simpl in *. by rewrite IH.
    + change (join "/" (String a q :: q' :: qs))
        with (String a q +:+ "/" +:+ join "/" (q' :: qs)).
      rewrite app_cons. f_equal. exact IH.
Qed.

(** The node that a walk down [segments] ends at has the joined segments as
    its [_path]; it gets the URL, and no other entry changes. *)
Lemma webmap_descend_entries by_path url segs : ∀ acc n,
  let target := match segs with
                | [] => node_path n
                | _ => join "/" (acc ++ segs)
                end in
  (target, Some url) ∈ entries (Webmap_playwright.descend by_path acc segs url n)
  ∧ ∀ e, e ∈ entries n →
         e ∈ entries (Webmap_playwright.descend by_path acc segs url n)
         ∨ e.1 = target.
Proof.
  induction segs as [|seg rest IH]; intros acc n.
  - destruct n as [x u cs p]. cbn [Webmap_playwright.descend set_url node_path].
    split; [apply entries_eq; by left|].
    intros e He. apply entries_eq in He as [->|H]; [by right|].
    left. apply entries_eq. by right.
  - cbn zeta. cbn [Webmap_playwright.descend].
    assert (∀ c, node_path c = join "/" (acc ++ [seg]) →
                 match rest with
                 | [] => node_path c
                 | _ => join "/" ((acc ++ [seg]) ++ rest)
                 end = join "/" (acc ++ seg :: rest)) as Ht.
    { intros c Hc. destruct rest as [|r rest']; [done|].
      by rewrite <- app_assoc. }
    destruct n as [x u cs p]. unfold find_or_create_then.
    destruct (update_child _ _ cs) as [cs'|] eqn:E.
    + apply update_child_Some in E as (pre & c & post & -> & -> & Hc).
      destruct (IH (acc ++ [seg]) c) as [H1 H2]. cbn zeta in H1, H2.
      rewrite (Ht c Hc) in H1, H2.
      split.
      * apply entries_eq. right. eexists. split; [|exact H1].
        apply elem_of_app. right. apply elem_of_cons. by left.
      * intros e He. apply entries_eq in He as [->|(d & Hd & He)].
        { left. apply entries_eq. by left. }
        cbn [node_children] in Hd.
        apply elem_of_app in Hd as [Hd|Hd]; [|apply elem_of_cons in Hd as [->|Hd]].
        -- left. apply entries_eq. right. exists d.
           split; [apply elem_of_app; by left|done].
        -- destruct (H2 e He) as [H|H]; [|by right].
           left. apply entries_eq. right. eexists. split; [|exact H].
           apply elem_of_app. right. apply elem_of_cons. by left.
        -- left. apply entries_eq. right. exists d.
           split; [|done]. apply elem_of_app. right. apply elem_of_cons. by right.
    + destruct (IH (acc ++ [seg])
                  (Node seg (by_path !! join "/" (acc ++ [seg])) []
                     (join "/" (acc ++ [seg])))) as [H1 _].
      cbn zeta in H1.
      rewrite (Ht (Node seg (by_path !! join "/" (acc ++ [seg])) []
                     (join "/" (acc ++ [seg]))) eq_refl) in H1.
      split.
      * apply entries_eq. right. eexists. split; [|exact H1].
        apply elem_of_app. right. apply elem_of_cons. by left.
      * intros e He. left. apply entries_eq in He as [->|(d & Hd & He)].
        { apply entries_eq. by left. }
        apply entries_eq. right. exists d. split; [|done].
        apply elem_of_app. by left.
Qed.

Lemma webmap_add_url_covered by_path l root k :
  webmap_covered l root →
  webmap_covered (l ++ [k]) (Webmap_playwright.add_url by_path root k).
Proof.
  intros H k1 Hk1 Hne. unfold Webmap_playwright.add_url.
  apply elem_of_app in Hk1 as [Hk1|Hk1].
  - destruct (H k1 Hk1 Hne) as (k' & Hk' & Hp & He).
    destruct (is_empty (Webmap_playwright.norm_path k)) eqn:E.
    { exists k'. split; [apply elem_of_app; by left|done]. }
    destruct (webmap_descend_entries by_path k
                (split_char "/" (Webmap_playwright.norm_path k)) [] root) as [H1 H2].
    cbn zeta in H1, H2.
    pose proof (split_char_nonempty "/" (Webmap_playwright.norm_path k)) as Hs.
    pose proof (join_split (Webmap_playwright.norm_path k)) as Hj.
    destruct (split_char "/" (Webmap_playwright.norm_path k)) as [|q qs] eqn:Eq; [done|].
    rewrite app_nil_l, Hj in H1, H2.
    destruct (H2 _ He) as [H3|H3].
    + exists k'. split; [apply elem_of_app; by left|done].
    + simpl in H3. exists k. split; [apply elem_of_app; right; apply elem_of_cons; by left|].
      split; [done|]. by rewrite H3.
  - apply elem_of_cons in Hk1 as [->|Hk1]; [|by apply elem_of_nil in Hk1].
    destruct (is_empty (Webmap_playwright.norm_path k)) eqn:E.
    { by destruct (Webmap_playwright.norm_path k). }
    destruct (webmap_descend_entries by_path k
                (split_char "/" (Webmap_playwright.norm_path k)) [] root) as [H1 _].
    cbn zeta in H1.
    pose proof (split_char_nonempty "/" (Webmap_playwright.norm_path k)) as Hs.
    pose proof (join_split (Webmap_playwright.norm_path k)) as Hj.
    destruct (split_char "/" (Webmap_playwright.norm_path k)) as [|q qs] eqn:Eq; [done|].
    rewrite app_nil_l, Hj in H1.
    exists k. split; [apply elem_of_app; right; apply elem_of_cons; by left|done].
Qed.

Lemma webmap_foldl_covered by_path keys : ∀ l root,
  webmap_covered l root →
  webmap_covered (l ++ keys) (foldl (Webmap_playwright.add_url by_path) root keys).
Proof.
  induction keys as [|k keys IH]; intros l root Hroot.
  - by rewrite app_nil_r.
  - simpl. rewrite cons_middle, app_assoc. apply IH.
    by apply webmap_add_url_covered.
Qed.

Lemma webmap_build_covered start_url keys :
  webmap_covered keys (Webmap_playwright.build_nodes start_url keys).
Proof.
  unfold Webmap_playwright.build_nodes.
  apply (webmap_foldl_covered _ keys []).
  intros k Hk. by apply elem_of_nil in Hk.
Qed.

End TreeCover.

(** X11: in the tree of 3webmap_playwright.py, every key of [pages] whose
    URL has a path is represented: some node carries a key of [pages] with
    the same path (the key itself when no other key shares its path). *)
Theorem tree_covers_pages (start_url : string)
    (pages : list (string * list string)) (k : string) :
  k ∈ pages.*1 →
  Webmap_playwright.norm_path k ≠ "" →
  ∃ k', k' ∈ pages.*1
        ∧ Webmap_playwright.norm_path k' = Webmap_playwright.norm_path k
        ∧ Some k' ∈ More.urls (Webmap_playwright.build_tree start_url pages).
Proof.
  intros Hk Hne.
  destruct (webmap_build_covered start_url pages.*1 k Hk Hne) as (k' & Hk' & Hp & He).
  exists k'. split; [done|]. split; [done|].
  unfold Webmap_playwright.build_tree.
  exact (entries_urls _ _ He).
Qed.

(** X11 on two pages, for the page below the start page. *)
Lemma tree_covers_pages_witness :
  ∃ k', k' ∈ [("https://a.com", ["https://a.com/docs/x"]);
               ("https://a.com/docs/x", [])].*1
        ∧ Webmap_playwright.norm_path k'
          = Webmap_playwright.norm_path "https://a.com/docs/x"
        ∧ Some k' ∈ More.urls
            (Webmap_playwright.build_tree "https://a.com"
               [("https://a.com", ["https://a.com/docs/x"]);
                ("https://a.com/docs/x", [])]).
Proof.
  apply (tree_covers_pages "https://a.com"
           [("https://a.com", ["https://a.com/docs/x"]); ("https://a.com/docs/x", [])]
           "https://a.com/docs/x").
  - simpl. apply elem_of_cons. right. apply elem_of_cons. by left.
  - vm_compute. discriminate.
Defined.

Section FinalCover.
Import Py Aux More.

Lemma final_add_url_route root url :
  Final_webmap.add_url root url
  = match final_route url with
    | Some segs => Final_webmap.descend "" segs url root
    | None => root
    end.
Proof.
  unfold Final_webmap.add_url, final_route. cbn zeta. by destruct (_ || _).
Qed.

(** The node that a walk down [segments] ends at has the accumulated path
    as its [_path]; it gets the URL, and no other entry changes. *)
Lemma final_descend_entries url segs : ∀ accum n,
  let target := match segs with
                | [] => node_path n
                | _ => foldl final_step accum segs
                end in
  (target, Some url) ∈ entries (Final_webmap.descend accum segs url n)
  ∧ ∀ e, e ∈ entries n →
         e ∈ entries (Final_webmap.descend accum segs url n) ∨ e.1 = target.
Proof.
  induction segs as [|seg rest IH]; intros accum n.
  - destruct n as [x u cs p]. cbn [Final_webmap.descend set_url node_path].
    split; [apply entries_eq; by left|].
    intros e He. apply entries_eq in He as [->|H]; [by right|].
    left. apply entries_eq. by right.
  - cbn zeta. cbn [Final_webmap.descend foldl].
    change (if is_empty accum then "/" +:+ seg else accum +:+ "/" +:+ seg)
      with (final_step accum seg).
    set (a := final_step accum seg).
    assert (∀ c, node_path c = a →
                 match rest with
                 | [] => node_path c
                 | _ => foldl final_step a rest
                 end = foldl final_step a rest) as Ht.
    { intros c Hc. by destruct rest. }
    destruct n as [x u cs p]. unfold find_or_create_then.
    destruct (update_child _ _ cs) as [cs'|] eqn:E.
    + apply update_child_Some in E as (pre & c & post & -> & -> & Hc).
      destruct (IH a c) as [H1 H2]. cbn zeta in H1, H2.
      rewrite (Ht c Hc) in H1, H2.
      split.
      * apply entries_eq. right. eexists. split; [|exact H1].
        apply elem_of_app. right. apply elem_of_cons. by left.
      * intros e He. apply entries_eq in He as [->|(d & Hd & He)].
        { left. apply entries_eq. by left. }
        cbn [node_children] in Hd.
        apply elem_of_app in Hd as [Hd|Hd]; [|apply elem_of_cons in Hd as [->|Hd]].
        -- left. apply entries_eq. right. exists d.
           split; [apply elem_of_app; by left|done].
        -- destruct (H2 e He) as [H|H]; [|by right].
           left. apply entries_eq. right. eexists. split; [|exact H].
           apply elem_of_app. right. apply elem_of_cons. by left.
        -- left. apply entries_eq. right. exists d.
           split; [|done]. apply elem_of_app. right. apply elem_of_cons. by right.
    + destruct (IH a (Node a None [] a)) as [H1 _].
      cbn zeta in H1. rewrite (Ht (Node a None [] a) eq_refl) in H1.
      split.
      * apply entries_eq. right. eexists. split; [|exact H1].
        apply elem_of_app. right. apply elem_of_cons. by left.
      * intros e He. left. apply entries_eq in He as [->|(d & Hd & He)].
        { apply entries_eq. by left. }
        apply entries_eq. right. exists d. split; [|done].
        apply elem_of_app. by left.
Qed.

Lemma final_add_url_covered l root k :
  node_path root = "" →
  final_covered l root →
  node_path (Final_webmap.add_url root k) = ""
  ∧ final_covered (l ++ [k]) (Final_webmap.add_url root k).
Proof.
  intros Hp H. rewrite final_add_url_route.
  destruct (final_route k) as [segs_k|] eqn:Ek.
  - split; [by rewrite (proj2 (final_descend_distinct "" segs_k k root))|].
    destruct (final_descend_entries k segs_k "" root) as [H1 H2]. cbn zeta in H1, H2.
    assert (match segs_k with
            | [] => node_path root
            | _ => foldl final_step "" segs_k
            end = final_accum segs_k) as Ht.
    { destruct segs_k; [by rewrite Hp|done]. }
    rewrite Ht in H1, H2.
    intros u segs Hu Hr. apply elem_of_app in Hu as [Hu|Hu].
    + destruct (H u segs Hu Hr) as (u' & segs' & Hu' & Hr' & Ha & He).
      destruct (H2 _ He) as [H3|H3].
      * exists u', segs'. split; [apply elem_of_app; by left|done].
      * simpl in H3. exists k, segs_k.
        split; [apply elem_of_app; right; apply elem_of_cons; by left|].
        split; [done|]. split; [by rewrite <- H3|done].
    + apply elem_of_cons in Hu as [->|Hu]; [|by apply elem_of_nil in Hu].
      rewrite Ek in Hr. injection Hr as <-.
      exists k, segs_k.
      split; [apply elem_of_app; right; apply elem_of_cons; by left|done].
  - split; [done|].
    intros u segs Hu Hr. apply elem_of_app in Hu as [Hu|Hu].
    + destruct (H u segs Hu Hr) as (u' & segs' & Hu' & Hr' & Ha & He).
      exists u', segs'. split; [apply elem_of_app; by left|done].
    + apply elem_of_cons in Hu as [->|Hu]; [|by apply elem_of_nil in Hu].
      by rewrite Ek in Hr.
Qed.

Lemma final_foldl_covered urls : ∀ l root,
  node_path root = "" →
  final_covered l root →
  final_covered (l ++ urls) (foldl Final_webmap.add_url root urls).
Proof.
  induction urls as [|k urls IH]; intros l root Hp Hroot.
  - by rewrite app_nil_r.
  - simpl. rewrite cons_middle, app_assoc.
    destruct (final_add_url_covered l root k Hp Hroot) as [Hp' Hc].
    by apply IH.
Qed.

End FinalCover.

(** X12: in the tree of final_webmap.py, every URL on the host of the first
    page, a key of [pages] or a link, that is not skipped as the root-level
    path is represented: some node carries such a URL with the same
    accumulated path. *)
Theorem final_tree_covers (I : SetIter) (first_url : string) (v : list string)
    (ps : list (string * list string)) (url : string) (segs : list string) :
  let pages := (first_url, v) :: ps in
  let domain := Url.netloc (Url.urlparse first_url) in
  url ∈ Final_webmap.domain_urls domain pages →
  More.final_route url = Some segs →
  ∃ url' segs' t,
    url' ∈ Final_webmap.domain_urls domain pages
    ∧ More.final_route url' = Some segs'
    ∧ More.final_accum segs' = More.final_accum segs
    ∧ Final_webmap.build_tree_from_pages I pages = Some t
    ∧ Some url' ∈ More.urls t.
Proof.
  intros pages domain Hu Hr.
  assert (More.final_covered
            (merge_sort String.le (I (Final_webmap.domain_urls domain pages)))
            (foldl Final_webmap.add_url (Final_webmap.root_of first_url)
               (merge_sort String.le (I (Final_webmap.domain_urls domain pages)))))
    as Hc.
  { apply (final_foldl_covered _ []); [done|].
    intros k s Hk. by apply elem_of_nil in Hk. }
  assert (∀ u, u ∈ merge_sort String.le (I (Final_webmap.domain_urls domain pages))
               ↔ u ∈ Final_webmap.domain_urls domain pages) as Hm.
  { intros u. by rewrite merge_sort_Permutation, (iter_perm I), elem_of_elements. }
  destruct (Hc url segs (proj2 (Hm url) Hu) Hr) as (u' & segs' & Hu' & Hr' & Ha & He).
  exists u', segs'. eexists. split; [by apply Hm|]. split; [done|]. split; [done|].
  split; [reflexivity|]. exact (entries_urls _ _ He).
Qed.

(** X12 on one page with one link, for the link. *)
Lemma final_tree_covers_witness :
  ∃ url' segs' t,
    url' ∈ Final_webmap.domain_urls (Url.netloc (Url.urlparse "https://a.com"))
             [("https://a.com", ["https://a.com/docs/x"])]
    ∧ More.final_route url' = Some segs'
    ∧ More.final_accum segs' = More.final_accum ["docs"; "x"]
    ∧ Final_webmap.build_tree_from_pages Sim.elements_iter
        [("https://a.com", ["https://a.com/docs/x"])] = Some t
    ∧ Some url' ∈ More.urls t.
Proof.
  apply (final_tree_covers Sim.elements_iter "https://a.com" ["https://a.com/docs/x"] []
           "https://a.com/docs/x" ["docs"; "x"]).
  - apply elem_of_filter. split; [by vm_compute|].
    unfold Final_webmap.all_urls. simpl. set_solver.
  - reflexivity.
Defined.

(** * From [main] to the keys of the adjacency map *)

Section MainStart.
Import Py Aux More.

Lemma rooted_keys_linked start (pages : list (string * list string)) k :
  rooted start pages → k ∈ pages.*1 → linked start pages k.
Proof.
  intros Hr Hk. apply list_elem_of_fmap in Hk as ([k0 v] & -> & Hin).
  apply list_elem_of_split in Hin as (p1 & p2 & ->).
  destruct (Hr p1 k0 v p2 eq_refl) as [->|(k' & l & Hk' & Hl)]; [by left|].
  right. exists k', l. split; [|done]. apply elem_of_app. by left.
Qed.

(** The start URL of 3webmap_playwright.py is in normal form, unless the
    argument normalises to the empty string. *)
Lemma webmap_start_url_fixed arg :
  Webmap_playwright.normalize arg ≠ "" →
  Webmap_playwright.normalize (main_start_url Webmap_playwright.normalize arg)
  = main_start_url Webmap_playwright.normalize arg.
Proof.
  intros Hne. unfold main_start_url. cbn zeta.
  destruct (webmap_normal_form arg) as (Hfix & Hh & Hq & He).
  destruct (negb _ && negb _); [|exact Hfix].
  rewrite webmap_normalize_cut.
  rewrite cut_id; [|by rewrite has_char_app, Hh|by rewrite has_char_app, Hq].
  apply rstrip_id. by rewrite ends_with_char_app_r.
Qed.

(** The start URL of final_webmap.py is in normal form when the normalised
    argument starts with [http://] or [https://], or holds no [://]. *)
Lemma final_start_url_fixed arg :
  startswith "http://" (Final_webmap.normalize arg)
    || startswith "https://" (Final_webmap.normalize arg) = true
  ∨ split_once "://" (Final_webmap.normalize arg) = None →
  Final_webmap.normalize (main_start_url Final_webmap.normalize arg)
  = main_start_url Final_webmap.normalize arg.
Proof.
  intros Hs. unfold main_start_url. cbn zeta.
  destruct (final_normal_form arg) as (Hfix & Hh & Hq).
  destruct (startswith "http://" (Final_webmap.normalize arg)) eqn:E1; [exact Hfix|].
  destruct (startswith "https://" (Final_webmap.normalize arg)) eqn:E2; [exact Hfix|].
  destruct Hs as [Hs|Hs]; [done|]. cbn [negb andb].
  assert (slash_rule (Final_webmap.normalize arg) = Final_webmap.normalize arg) as Hr.
  { rewrite final_normalize_cut in Hfix. rewrite (cut_id _ Hh Hq), Hs in Hfix.
    exact Hfix. }
  rewrite final_normalize_cut.
  rewrite cut_id; [|by rewrite has_char_app, Hh|by rewrite has_char_app, Hq].
  change (split_once "://" ("https://" +:+ Final_webmap.normalize arg))
    with (Some ("https", Final_webmap.normalize arg)).
  cbv beta iota. by rewrite Hr.
Qed.

End MainStart.

(** X13: when [main] of 3webmap_playwright.py is given an argument that
    does not normalise to the empty string, every key of the adjacency map
    that [crawl] returns for its start URL is in normal form: [normalize]
    leaves it as it is. *)
Theorem main_keys_canonical (W : World) (arg : string) (max_pages : Z)
    (max_clicks : nat) (t0 : tab W) (k : string) :
  Webmap_playwright.normalize arg ≠ "" →
  k ∈ (Webmap_playwright.crawl W
         (More.main_start_url Webmap_playwright.normalize arg)
         max_pages max_clicks t0).*1 →
  Webmap_playwright.normalize k = k.
Proof.
  intros Hne Hk.
  assert (More.rooted (More.main_start_url Webmap_playwright.normalize arg)
            (Webmap_playwright.crawl W
               (More.main_start_url Webmap_playwright.normalize arg)
               max_pages max_clicks t0)) as Hr.
  { eapply (reach_rooted W max_pages _ (set_order W) (set_order_elems W) _ t0).
    apply run_reach. }
  destruct (rooted_keys_linked _ _ _ Hr Hk) as [->|(k' & l & Hin & Hl)].
  - by apply webmap_start_url_fixed.
  - destruct (reach_values W max_pages _ (set_order W) _ t0 _ k' l
                (run_reach _ _ _ _ _ _) Hin) as (X & t1 & t2 & tr & Ev & ->).
    apply set_order_elems in Hl.
    destruct (webmap_visit_form W _ _ _ _ _ _ _ _ Ev Hl) as [a ->].
    apply webmap_normal_form.
Qed.

(** X13 for the argument [ex.com/] on the site with three pages. *)
Lemma main_keys_canonical_witness :
  Webmap_playwright.normalize "https://ex.com/c" = "https://ex.com/c".
Proof.
  apply (main_keys_canonical (Sim.world Sim.twice_site) "ex.com/" 10 50 Sim.blank
           "https://ex.com/c").
  - vm_compute. discriminate.
  - vm_compute. apply list_elem_of_further, list_elem_of_here.
Defined.

(** X14: when [main] of final_webmap.py is given an argument whose normal
    form starts with [http://] or [https://], or holds no [://], every key
    of the adjacency map that [crawl] returns for its start URL is in normal
    form. *)
Theorem final_main_keys_canonical (W : World) (arg : string) (max_pages : Z)
    (t0 : tab W) (k : string) :
  Py.startswith "http://" (Final_webmap.normalize arg)
    || Py.startswith "https://" (Final_webmap.normalize arg) = true
  ∨ Py.split_once "://" (Final_webmap.normalize arg) = None →
  k ∈ (Final_webmap.crawl W (More.main_start_url Final_webmap.normalize arg)
         max_pages t0).*1 →
  Final_webmap.normalize k = k.
Proof.
  intros Hs Hk.
  assert (More.rooted (More.main_start_url Final_webmap.normalize arg)
            (Final_webmap.crawl W (More.main_start_url Final_webmap.normalize arg)
               max_pages t0)) as Hr.
  { eapply (reach_rooted W max_pages _ (Final_webmap.sorted (set_order W))
              (sorted_elems W) _ t0).
    apply run_reach. }
  destruct (rooted_keys_linked _ _ _ Hr Hk) as [->|(k' & l & Hin & Hl)].
  - by apply final_start_url_fixed.
  - destruct (reach_values W max_pages _ (Final_webmap.sorted (set_order W)) _ t0 _ k' l
                (run_reach _ _ _ _ _ _) Hin) as (X & t1 & t2 & tr & Ev & ->).
    apply sorted_elems in Hl.
    destruct (final_visit_form W _ _ _ _ _ _ _ Ev Hl) as [a ->].
    apply final_normal_form.
Qed.

(** X14 for the argument [ex.com] on the site with three pages. *)
Lemma final_main_keys_canonical_witness :
  Final_webmap.normalize "https://ex.com/c" = "https://ex.com/c".
Proof.
  apply (final_main_keys_canonical (Sim.world Sim.twice_site) "ex.com" 10 Sim.blank
           "https://ex.com/c").
  - right. reflexivity.
  - vm_compute. apply list_elem_of_further, list_elem_of_here.
Defined.
